(** * The Bernoulli distribution class of
      tensorflow/contrib/distributions/python/ops/bernoulli.py

    A shallow embedding of the [Bernoulli] class, of its subclass
    [BernoulliWithSigmoidP] and of the registered Kullback-Leibler function
    [_kl_bernoulli_bernoulli], with the properties their specification states.

    Tensors are a shape with the row-major list of their entries.  Entries of
    floating dtypes are read as real numbers: the theorems below speak of the
    formulas the code evaluates, not of their rounding.  Where a formula can
    leave the range of float32, its overflow is modelled apart (see
    [float32]), and the properties that depend on it say within which
    logits they hold.  Operations that raise in Python return a
    [result]. *)

From Stdlib Require Import String Reals Lra Lia Bool Arith ZArith List.
Import ListNotations.

Set Implicit Arguments.

(** ** Exceptions *)

Inductive exn : Type :=
| ValueError (msg : string)
| InvalidArgumentError (msg : string).

Inductive result (A : Type) : Type :=
| Ok (a : A)
| Raise (e : exn).

Arguments Ok {A} a.
Arguments Raise {A} e.

Definition bind {A B : Type} (m : result A) (k : A -> result B) : result B :=
  match m with
  | Ok a => k a
  | Raise e => Raise e
  end.

Notation "x <- m ;; k" := (bind m (fun x => k))
  (at level 61, m at next level, right associativity).

Definition is_value_error {A : Type} (r : result A) : Prop :=
  exists msg, r = Raise (ValueError msg).

Definition succeeds {A : Type} (r : result A) : Prop :=
  exists a, r = Ok a.

(** ** Lists of entries *)

Fixpoint zip_with {A B C : Type} (f : A -> B -> C) (l : list A) (l' : list B)
  : list C :=
  match l, l' with
  | a :: t, b :: t' => f a b :: zip_with f t t'
  | _, _ => []
  end.

Fixpoint tile {A : Type} (n : nat) (l : list A) : list A :=
  match n with
  | O => []
  | S k => l ++ tile k l
  end.

Fixpoint chunks {A : Type} (k count : nat) (l : list A) : list (list A) :=
  match count with
  | O => []
  | S c => firstn k l :: chunks k c (skipn k l)
  end.

Definition num_elements (s : list nat) : nat := fold_right Nat.mul 1%nat s.

Definition pad {A : Type} (one : A) (r : nat) (s : list A) : list A :=
  repeat one (r - length s) ++ s.

(** ** Static shapes *)

(** Modelled from the spec: tensorflow/python/framework/tensor_shape.py is
    not under src/; this is the "shape introspection" the spec attributes to
    the hosting framework.  A static shape is what is known of a tensor's
    shape when the graph is built: the rank may be unknown, and so may each
    dimension. *)
Module tensor_shape.

Definition Dimension : Type := option nat.
Definition TensorShape : Type := option (list Dimension).

Definition unknown_shape : TensorShape := None.
Definition scalar : TensorShape := Some [].

Definition as_shape (s : list nat) : TensorShape := Some (map Some s).

Definition is_known (d : Dimension) : bool :=
  match d with Some _ => true | None => false end.

Definition is_fully_defined (s : TensorShape) : bool :=
  match s with
  | Some dims => forallb is_known dims
  | None => false
  end.

Definition dim_eqb (x y : Dimension) : bool :=
  match x, y with
  | Some n, Some m => Nat.eqb n m
  | None, None => true
  | _, _ => false
  end.

Fixpoint dims_eqb (a b : list Dimension) : bool :=
  match a, b with
  | [], [] => true
  | x :: a', y :: b' => dim_eqb x y && dims_eqb a' b'
  | _, _ => false
  end.

(** [TensorShape.__ne__]: undefined (an error) when a rank is unknown. *)
Definition ne (a b : TensorShape) : result bool :=
  match a, b with
  | Some da, Some db => Ok (negb (dims_eqb da db))
  | _, _ =>
      Raise (ValueError "The inequality of unknown TensorShapes is undefined.")
  end.

(** What a static shape says of the shape a tensor has when it is run. *)
Definition dim_describes (d : Dimension) (n : nat) : bool :=
  match d with Some m => Nat.eqb m n | None => true end.

Fixpoint dims_describe (ds : list Dimension) (s : list nat) : bool :=
  match ds, s with
  | [], [] => true
  | d :: ds', n :: s' => dim_describes d n && dims_describe ds' s'
  | _, _ => false
  end.

Definition describes (st : TensorShape) (s : list nat) : bool :=
  match st with Some ds => dims_describe ds s | None => true end.

(** Shape inference of a broadcasting operation, one dimension: an unknown
    dimension against a known one above 1 is taken to broadcast to it.  Two
    known dimensions that do not broadcast make the operation raise while
    the graph is built, see [is_conflicting]. *)
Definition broadcast_dim (x y : Dimension) : Dimension :=
  match x, y with
  | Some n, Some m => if Nat.eqb n 1 then Some m else Some n
  | Some n, None => if Nat.ltb 1 n then Some n else None
  | None, Some m => if Nat.ltb 1 m then Some m else None
  | None, None => None
  end.

Definition broadcast_shape (a b : TensorShape) : TensorShape :=
  match a, b with
  | Some da, Some db =>
      let r := Nat.max (length da) (length db) in
      Some (zip_with broadcast_dim (pad (Some 1%nat) r da)
                                   (pad (Some 1%nat) r db))
  | _, _ => unknown_shape
  end.

(** Two static shapes that are known not to broadcast: at some position,
    counted from the last, both dimensions are known, differ, and neither
    is 1.  Shape inference refuses them while the graph is built. *)
Definition dim_conflict (x y : Dimension) : bool :=
  match x, y with
  | Some n, Some m =>
      negb (Nat.eqb n m) && negb (Nat.eqb n 1) && negb (Nat.eqb m 1)
  | _, _ => false
  end.

Definition is_conflicting (a b : TensorShape) : bool :=
  match a, b with
  | Some da, Some db =>
      let r := Nat.max (length da) (length db) in
      existsb (fun d => d)
              (zip_with dim_conflict (pad (Some 1%nat) r da)
                                     (pad (Some 1%nat) r db))
  | _, _ => false
  end.

End tensor_shape.

(** ** Tensors *)

Record Tensor (A : Type) : Type := mkTensor {
  get_shape : tensor_shape.TensorShape;   (* static shape *)
  shape : list nat;                       (* shape when run *)
  values : list A                         (* entries, row-major *)
}.

Definition well_formed {A : Type} (t : Tensor A) : Prop :=
  length (values t) = num_elements (shape t) /\
  tensor_shape.describes (get_shape t) (shape t) = true.

(** Broadcasting of shapes and of entries, as the framework's elementwise
    binary kernels do it: shapes are aligned at their last dimension, and a
    dimension of size 1 is stretched. *)

Definition broadcast_dim (x y : nat) : option nat :=
  if Nat.eqb x y then Some x
  else if Nat.eqb x 1 then Some y
  else if Nat.eqb y 1 then Some x
  else None.

Fixpoint broadcast_dims (a b : list nat) : option (list nat) :=
  match a, b with
  | [], [] => Some []
  | x :: a', y :: b' =>
      match broadcast_dim x y, broadcast_dims a' b' with
      | Some d, Some r => Some (d :: r)
      | _, _ => None
      end
  | _, _ => None
  end.

Definition broadcast_shape (a b : list nat) : option (list nat) :=
  let r := Nat.max (length a) (length b) in
  broadcast_dims (pad 1%nat r a) (pad 1%nat r b).

Fixpoint broadcast_values {A : Type} (target src : list nat) (v : list A)
  : list A :=
  match target, src with
  | n :: t', m :: s' =>
      let rows :=
        flat_map (broadcast_values t' s') (chunks (num_elements s') m v) in
      if Nat.eqb m n then rows else tile n rows
  | _, _ => v
  end.

Definition broadcast_to {A : Type} (target : list nat) (t : Tensor A)
  : list A :=
  broadcast_values target (pad 1%nat (length target) (shape t)) (values t).

(** An elementwise operation of one tensor keeps both shapes. *)
Definition map_tensor {A B : Type} (f : A -> B) (t : Tensor A) : Tensor B :=
  mkTensor (get_shape t) (shape t) (map f (values t)).

(** The exception for shapes that do not broadcast: a ValueError while the
    graph is built when the static shapes already show it, an
    InvalidArgumentError when the graph is run otherwise. *)
Definition shape_error (a b : tensor_shape.TensorShape) : exn :=
  if tensor_shape.is_conflicting a b
  then ValueError "Dimensions must be equal"
  else InvalidArgumentError "Incompatible shapes".

(** An elementwise operation of two tensors broadcasts them. *)
Definition map2_tensor {A B C : Type} (f : A -> B -> C)
  (x : Tensor A) (y : Tensor B) : result (Tensor C) :=
  match broadcast_shape (shape x) (shape y) with
  | Some s =>
      Ok (mkTensor (tensor_shape.broadcast_shape (get_shape x) (get_shape y))
                   s
                   (zip_with f (broadcast_to s x) (broadcast_to s y)))
  | None => Raise (shape_error (get_shape x) (get_shape y))
  end.

(** Stretching: a source dimension fits a target one when it is that
    dimension or 1. *)
Definition fits (target src : list nat) : Prop :=
  Forall2 (fun n m => m = n \/ m = 1%nat) target src.

(** ** Entries and dtypes *)

(** Modelled from the spec: tensorflow/python/framework/dtypes.py is not
    under src/; these are the spec's "sample dtype" and "declared output
    type".  The entries of a floating tensor are real numbers here. *)
Module dtypes.

Inductive DType : Type :=
| bool_
| int32
| int64
| float32
| float64.

End dtypes.

Inductive Scalar : Type :=
| SBool (b : bool)
| SInt (z : Z)
| SFloat (r : R).

(** The comparisons [<] and [>] of two entries. *)
Definition Rltb (x y : R) : bool := if Rlt_dec x y then true else false.
Definition Rgtb (x y : R) : bool := Rltb y x.

(** ** The framework's operations *)

(** Modelled from the spec: tensorflow/python/ops/array_ops.py is not under
    src/; these are among the spec's "calls into an external tensor-math
    library (elementwise ops, broadcasting, ... shape introspection)". *)
Module array_ops.

Definition identity {A : Type} (t : Tensor A) : Tensor A := t.

(** The shape of a tensor when it is run, as a vector of dimensions. *)
Definition shape_ {A : Type} (t : Tensor A) : list nat := shape t.

(** [concat(0, (a, b))] of two vectors of dimensions. *)
Definition concat (a b : list nat) : list nat := a ++ b.

Definition ones_like (t : Tensor R) : Tensor R :=
  map_tensor (fun _ => 1%R) t.

End array_ops.

(** Modelled from the spec: tensorflow/python/ops/math_ops.py is not under
    src/; the spec's "elementwise ops" and "broadcasting".  Each operation is
    the elementwise real function of its name; the two-tensor ones broadcast
    and raise on shapes that do not broadcast. *)
Module math_ops.

Definition neg : Tensor R -> Tensor R := map_tensor Ropp.
Definition exp : Tensor R -> Tensor R := map_tensor Rtrigo_def.exp.
Definition log : Tensor R -> Tensor R := map_tensor ln.
Definition sqrt : Tensor R -> Tensor R := map_tensor R_sqrt.sqrt.

Definition sigmoid_ (x : R) : R := (1 / (1 + Rtrigo_def.exp (- x)))%R.
Definition sigmoid : Tensor R -> Tensor R := map_tensor sigmoid_.

Definition add : Tensor R -> Tensor R -> result (Tensor R) :=
  map2_tensor Rplus.
Definition sub : Tensor R -> Tensor R -> result (Tensor R) :=
  map2_tensor Rminus.
Definition mul : Tensor R -> Tensor R -> result (Tensor R) :=
  map2_tensor Rmult.
Definition truediv : Tensor R -> Tensor R -> result (Tensor R) :=
  map2_tensor Rdiv.
Definition less : Tensor R -> Tensor R -> result (Tensor bool) :=
  map2_tensor Rltb.
Definition greater : Tensor R -> Tensor R -> result (Tensor bool) :=
  map2_tensor Rgtb.

(** A Python number as an operand: it is made a constant of rank 0 and
    stretched over the tensor, whose shape the result keeps. *)
Definition scalar_sub (c : R) : Tensor R -> Tensor R :=
  map_tensor (fun x => (c - x)%R).
Definition sub_scalar (t : Tensor R) (c : R) : Tensor R :=
  map_tensor (fun x => (x - c)%R) t.
Definition scalar_add (c : R) : Tensor R -> Tensor R :=
  map_tensor (fun x => (c + x)%R).

(** [cast] of a boolean tensor to a dtype. *)
Definition cast_ (dt : dtypes.DType) (b : bool) : Scalar :=
  match dt with
  | dtypes.bool_ => SBool b
  | dtypes.int32 | dtypes.int64 => SInt (if b then 1 else 0)
  | dtypes.float32 | dtypes.float64 => SFloat (if b then 1 else 0)
  end.
Definition cast (t : Tensor bool) (dt : dtypes.DType) : Tensor Scalar :=
  map_tensor (cast_ dt) t.

(** [cast] of any tensor to a floating dtype. *)
Definition to_float_ (s : Scalar) : R :=
  match s with
  | SBool b => if b then 1%R else 0%R
  | SInt z => IZR z
  | SFloat r => r
  end.
Definition to_float : Tensor Scalar -> Tensor R := map_tensor to_float_.

End math_ops.

(** Modelled from the spec: tensorflow/python/ops/nn.py is not under src/;
    the spec's "sigmoid", "softplus" and "sigmoid cross-entropy ... the
    underlying primitive does not broadcast". *)
Module nn.

Definition sigmoid : Tensor R -> Tensor R := math_ops.sigmoid.

Definition softplus_ (x : R) : R := ln (1 + Rtrigo_def.exp x).
Definition softplus : Tensor R -> Tensor R := map_tensor softplus_.

(** The sigmoid cross-entropy of logits [x] against targets [z], in the
    overflow-free form the framework evaluates:
    max(x, 0) - x * z + log(1 + exp(-abs(x))).  The two tensors must have
    one shape: this operation does not broadcast. *)
Definition logistic_loss_ (x z : R) : R :=
  (Rmax x 0 - x * z + ln (1 + Rtrigo_def.exp (- Rabs x)))%R.

Definition sigmoid_cross_entropy_with_logits (logits targets : Tensor R)
  : result (Tensor R) :=
  if list_eq_dec Nat.eq_dec (shape targets) (shape logits) then
    Ok (mkTensor (get_shape logits) (shape logits)
                 (zip_with logistic_loss_ (values logits) (values targets)))
  else
    Raise (ValueError "logits and targets must have the same shape").

End nn.

(** ** [distribution_util.get_logits_and_prob] *)

Module distribution_util.

(** Modelled from the spec: distribution_util.py is not under src/.  The
    spec: construction "accepts exactly one of p or logits (mutually
    exclusive, fails with an argument error otherwise)"; the one supplied
    determines the other "in a mutually-consistent closed form", the logits
    being the log-odds log(p/(1-p)) of the glossary and the probability the
    sigmoid of the logits.  [validate_args] adds checks of [0 <= p <= 1]
    that fire when the graph is run, not when the distribution is
    constructed; they are left out.  At [p = 0] and [p = 1] the log-odds
    are infinite and have no value among the reals: what is proved of the
    logits' values assumes [finite_logits], which leaves these two out. *)
Definition get_logits_and_prob
  (logits p : option (Tensor R)) (validate_args : bool)
  : result (Tensor R * Tensor R) :=
  match logits, p with
  | None, None => Raise (ValueError "Must pass p or logits.")
  | Some _, Some _ =>
      Raise (ValueError "Must pass either p or logits, not both.")
  | Some logits, None =>
      Ok (array_ops.identity logits, math_ops.sigmoid logits)
  | None, Some p =>
      odds <- math_ops.truediv p (math_ops.scalar_sub 1 p) ;;
      Ok (math_ops.log odds, array_ops.identity p)
  end.

End distribution_util.

(** ** class Bernoulli *)

Record Bernoulli : Type := mkBernoulli {
  _logits : Tensor R;
  _p : Tensor R;
  _q : Tensor R;
  dtype : dtypes.DType;
  validate_args : bool;
  allow_nan_stats : bool
}.

(** [Bernoulli.__init__].  Name scopes only label the nodes of the graph and
    are left out, with the [name] argument. *)
Definition Bernoulli_init (logits p : option (Tensor R))
  (dtype : dtypes.DType) (validate_args allow_nan_stats : bool)
  : result Bernoulli :=
  lp <- distribution_util.get_logits_and_prob logits p validate_args ;;
  let self_logits := fst lp in
  let self_p := snd lp in
  let self_q := math_ops.scalar_sub 1 self_p in
  Ok (mkBernoulli self_logits self_p self_q
                  dtype validate_args allow_nan_stats).

Definition logits (self : Bernoulli) : Tensor R := _logits self.
Definition p (self : Bernoulli) : Tensor R := _p self.
Definition q (self : Bernoulli) : Tensor R := _q self.

Definition _batch_shape (self : Bernoulli) : list nat :=
  array_ops.shape_ (_logits self).

Definition _get_batch_shape (self : Bernoulli) : tensor_shape.TensorShape :=
  get_shape (_logits self).

Definition _event_shape (self : Bernoulli) : list nat := [].

Definition _get_event_shape (self : Bernoulli) : tensor_shape.TensorShape :=
  tensor_shape.scalar.

Section Sampling.

(** [random_ops.random_uniform shape seed]: the noise the framework's
    generator draws for a shape and a seed. *)
Variable random_uniform : list nat -> option Z -> Tensor R.

Definition _sample_n (self : Bernoulli) (n : nat) (seed : option Z)
  : result (Tensor Scalar) :=
  let new_shape := array_ops.concat [n] (_batch_shape self) in
  let uniform := random_uniform new_shape seed in
  sample <- math_ops.less uniform (p self) ;;
  Ok (math_ops.cast sample (dtype self)).

End Sampling.

Definition _log_prob (self : Bernoulli) (event : Tensor Scalar)
  : result (Tensor R) :=
  let event := math_ops.to_float event in
  let logits := logits self in
  must_broadcast <-
    (if negb (tensor_shape.is_fully_defined (get_shape event)) then Ok true
     else if negb (tensor_shape.is_fully_defined (get_shape logits))
     then Ok true
     else tensor_shape.ne (get_shape event) (get_shape logits)) ;;
  le <-
    (if must_broadcast : bool then
       logits' <- math_ops.mul (array_ops.ones_like event) logits ;;
       event' <- math_ops.mul (array_ops.ones_like logits') event ;;
       Ok (logits', event')
     else Ok (logits, event)) ;;
  loss <- nn.sigmoid_cross_entropy_with_logits (fst le) (snd le) ;;
  Ok (math_ops.neg loss).

Definition _prob (self : Bernoulli) (event : Tensor Scalar)
  : result (Tensor R) :=
  lp <- _log_prob self event ;;
  Ok (math_ops.exp lp).

Definition _entropy (self : Bernoulli) : result (Tensor R) :=
  a <- math_ops.mul (math_ops.neg (logits self))
                    (math_ops.sub_scalar (math_ops.sigmoid (logits self)) 1) ;;
  math_ops.add a
    (math_ops.log (math_ops.scalar_add 1
                     (math_ops.exp (math_ops.neg (logits self))))).

Definition _mean (self : Bernoulli) : Tensor R := array_ops.identity (p self).

Definition _variance (self : Bernoulli) : result (Tensor R) :=
  math_ops.mul (q self) (p self).

Definition _std (self : Bernoulli) : result (Tensor R) :=
  v <- _variance self ;;
  Ok (math_ops.sqrt v).

Definition _mode (self : Bernoulli) : result (Tensor Scalar) :=
  gt <- math_ops.greater (p self) (q self) ;;
  Ok (math_ops.cast gt (dtype self)).

(** ** class BernoulliWithSigmoidP *)

(** [BernoulliWithSigmoidP.__init__], of a tensor [p]: the default [None]
    is no tensor, and [nn.sigmoid] does not take it. *)
Definition BernoulliWithSigmoidP_init (p : Tensor R)
  (dtype : dtypes.DType) (validate_args allow_nan_stats : bool)
  : result Bernoulli :=
  Bernoulli_init None (Some (nn.sigmoid p))
                 dtype validate_args allow_nan_stats.

(** ** The registered KL(Bernoulli || Bernoulli) *)

Definition _kl_bernoulli_bernoulli (a b : Bernoulli) : result (Tensor R) :=
  s1 <- math_ops.add (math_ops.neg (nn.softplus (math_ops.neg (logits a))))
                     (nn.softplus (math_ops.neg (logits b))) ;;
  t1 <- math_ops.mul (math_ops.sigmoid (logits a)) s1 ;;
  s2 <- math_ops.add (math_ops.neg (nn.softplus (logits a)))
                     (nn.softplus (logits b)) ;;
  t2 <- math_ops.mul (math_ops.sigmoid (math_ops.neg (logits a))) s2 ;;
  math_ops.add t1 t2.

(** ** What the properties speak of *)

(** The instances the constructor returns on tensors whose list of entries
    fits their shape. *)
Definition is_instance (d : Bernoulli) : Prop :=
  exists (lg pr : option (Tensor R)) dt va ans,
    Bernoulli_init lg pr dt va ans = Ok d /\
    (forall t, lg = Some t -> well_formed t) /\
    (forall t, pr = Some t -> well_formed t).

(** The Bernoulli mass function's logarithm at outcome [y], and the entropy,
    in terms of the probability [p] of a positive event. *)
Definition log_pmf (p y : R) : R := (y * ln p + (1 - y) * ln (1 - p))%R.

Definition reference_entropy (p q : R) : R := (- p * ln p - q * ln q)%R.

(** The closed form [_entropy] evaluates at one entry [x] of the logits. *)
Definition entropy_closed_form (x : R) : R :=
  (- x * (math_ops.sigmoid_ x - 1) + ln (1 + Rtrigo_def.exp (- x)))%R.

Definition in_unit_interval (x : R) : Prop := (0 <= x <= 1)%R.

Definition is_binary (y : Scalar) : Prop :=
  math_ops.to_float_ y = 0%R \/ math_ops.to_float_ y = 1%R.

(** The logits are finite exactly when the probability of a positive event
    lies strictly between 0 and 1. *)
Definition finite_logits (d : Bernoulli) : Prop :=
  Forall (fun x => (0 < x < 1)%R) (values (p d)).

(** The condition under which [_log_prob] broadcasts: the static shapes of
    event and logits differ or are not fully defined. *)
Definition differ_or_undefined (a b : tensor_shape.TensorShape) : bool :=
  negb (tensor_shape.is_fully_defined a)
  || negb (tensor_shape.is_fully_defined b)
  || match a, b with
     | Some da, Some db => negb (tensor_shape.dims_eqb da db)
     | _, _ => true
     end.

(** A generator of uniform noise: it returns the shape it is asked for, with
    entries in [0, 1). *)
Definition is_uniform_generator
  (random_uniform : list nat -> option Z -> Tensor R) : Prop :=
  forall s seed,
    shape (random_uniform s seed) = s /\
    length (values (random_uniform s seed)) = num_elements s /\
    Forall (fun u => (0 <= u < 1)%R) (values (random_uniform s seed)).

(** ** Instances and events to run the operations on *)

Definition vector (l : list R) : Tensor R :=
  mkTensor (tensor_shape.as_shape [length l]) [length l] l.

Definition sample_logits : Tensor R := vector [0%R; 2%R; (-1)%R].
Definition sample_probs : Tensor R := vector [(1/2)%R; (1/4)%R; (3/4)%R].

Definition from_logits : Bernoulli :=
  mkBernoulli sample_logits (math_ops.sigmoid sample_logits)
    (math_ops.scalar_sub 1 (math_ops.sigmoid sample_logits))
    dtypes.int32 false true.

(** Two events for each of the three distributions of [sample_logits]. *)
Definition sample_event : Tensor Scalar :=
  mkTensor (tensor_shape.as_shape [2%nat; 3%nat]) [2%nat; 3%nat]
           [SInt 1; SInt 0; SInt 1; SInt 0; SInt 0; SInt 1].

(** The instance [Bernoulli(p=t)] with the default arguments. *)
Definition with_p (t : Tensor R) : Bernoulli :=
  mkBernoulli
    (math_ops.log (mkTensor (get_shape t) (shape t)
                            (map (fun x => (x / (1 - x))%R) (values t))))
    t (math_ops.scalar_sub 1 t) dtypes.int32 false true.

Definition always_one : Bernoulli := with_p (vector [1%R; 1%R]).
Definition never_one : Bernoulli := with_p (vector [0%R; 0%R]).
Definition from_probs : Bernoulli := with_p sample_probs.

(** A generator that draws 1/2 everywhere. *)
Definition constant_uniform (s : list nat) (seed : option Z) : Tensor R :=
  mkTensor (tensor_shape.as_shape s) s (repeat (1/2)%R (num_elements s)).

(** ** The remaining method and further reference values *)

(** [Bernoulli._param_shapes], a static method: the dictionary with the one
    key "logits", as a list of its items. *)
Definition _param_shapes (sample_shape : list nat)
  : list (string * list nat) :=
  [("logits"%string, sample_shape)].

(** Lookup of a key in a dictionary given by its items. *)
Fixpoint dict_get {V : Type} (key : string) (items : list (string * V))
  : option V :=
  match items with
  | [] => None
  | (k, v) :: rest => if String.eqb k key then Some v else dict_get key rest
  end.

(** The Kullback-Leibler divergence of a Bernoulli distribution with
    probability [pa] of a positive event from one with probability [pb]. *)
Definition reference_kl (pa pb : R) : R :=
  (pa * ln (pa / pb) + (1 - pa) * ln ((1 - pa) / (1 - pb)))%R.

(** An event of rank 0. *)
Definition scalar_event (y : Scalar) : Tensor Scalar :=
  mkTensor tensor_shape.scalar [] [y].

(** The instance [Bernoulli(logits=t)] with the default arguments. *)
Definition with_logits (t : Tensor R) : Bernoulli :=
  mkBernoulli t (math_ops.sigmoid t)
    (math_ops.scalar_sub 1 (math_ops.sigmoid t)) dtypes.int32 false true.

Definition other_logits : Tensor R := vector [1%R; (-3)%R; 0%R].
Definition from_other_logits : Bernoulli := with_logits other_logits.

(** One event for each of the three distributions of [sample_logits], and
    an event of two entries, which fits none of them. *)
Definition batch_event : Tensor Scalar :=
  mkTensor (tensor_shape.as_shape [3%nat]) [3%nat] [SInt 1; SInt 0; SInt 1].

Definition mismatched_event : Tensor Scalar :=
  mkTensor (tensor_shape.as_shape [2%nat]) [2%nat] [SInt 1; SInt 0].

Definition larger_probs : Tensor R := vector [(3/4)%R; (1/2)%R; 1%R].
Definition from_larger_probs : Bernoulli := with_p larger_probs.

(** What [_kl_bernoulli_bernoulli] evaluates at one entry [x] of the logits
    of [a] and the entry [y] of the logits of [b] it meets. *)
Definition kl_closed_form (x y : R) : R :=
  (math_ops.sigmoid_ x * (- nn.softplus_ (- x) + nn.softplus_ (- y)) +
   math_ops.sigmoid_ (- x) * (- nn.softplus_ x + nn.softplus_ y))%R.

(** ** Overflow *)

(** An entry of a float32 tensor with its overflow: a real number, an
    infinity or not-a-number.  A result of magnitude 2^128 or more
    overflows to an infinity; the rounding of the mantissa is left out. *)
Inductive float32 : Type :=
| Finite (r : R)
| Infinity (negative : bool)
| NaN.

Definition float32_limit : R := (2 ^ 128)%R.

Definition overflow (r : R) : float32 :=
  if Rle_dec float32_limit (Rabs r) then Infinity (Rltb r 0) else Finite r.

Definition f32_neg (x : float32) : float32 :=
  match x with
  | Finite r => Finite (- r)
  | Infinity s => Infinity (negb s)
  | NaN => NaN
  end.

Definition f32_add (x y : float32) : float32 :=
  match x, y with
  | Finite a, Finite b => overflow (a + b)
  | Finite _, Infinity s | Infinity s, Finite _ => Infinity s
  | Infinity s, Infinity s' => if Bool.eqb s s' then Infinity s else NaN
  | _, _ => NaN
  end.

Definition f32_sub (x y : float32) : float32 := f32_add x (f32_neg y).

Definition f32_mul (x y : float32) : float32 :=
  match x, y with
  | Finite a, Finite b => overflow (a * b)
  | Finite a, Infinity s | Infinity s, Finite a =>
      if Req_dec_T a 0 then NaN else Infinity (xorb s (Rltb a 0))
  | Infinity s, Infinity s' => Infinity (xorb s s')
  | _, _ => NaN
  end.

Definition f32_exp (x : float32) : float32 :=
  match x with
  | Finite r => overflow (Rtrigo_def.exp r)
  | Infinity false => Infinity false
  | Infinity true => Finite 0
  | NaN => NaN
  end.

Definition f32_log (x : float32) : float32 :=
  match x with
  | Finite r =>
      if Rlt_dec r 0 then NaN
      else if Req_dec_T r 0 then Infinity true
      else Finite (ln r)
  | Infinity false => Infinity false
  | Infinity true => NaN
  | NaN => NaN
  end.

Definition f32_sigmoid (x : float32) : float32 :=
  match x with
  | Finite r => Finite (math_ops.sigmoid_ r)
  | Infinity false => Finite 1
  | Infinity true => Finite 0
  | NaN => NaN
  end.

(** The expression of [Bernoulli._entropy] at one float32 entry of the
    logits. *)
Definition _entropy_float32 (logits : float32) : float32 :=
  f32_add
    (f32_mul (f32_neg logits) (f32_sub (f32_sigmoid logits) (Finite 1)))
    (f32_log (f32_add (Finite 1) (f32_exp (f32_neg logits)))).

(** The logits at which [exp (- logits)] stays below the float32 limit:
    [exp 88 < 2^128 < exp 89]. *)
Definition exp_in_range (t : Tensor R) : Prop :=
  Forall (fun x => (-88 <= x)%R) (values t).

(** One step of an elementwise computation over a single tensor: [fuse]
    merges nested one-tensor operations, [fuse2] a two-tensor operation of
    two such results. *)
Ltac elementwise fuse fuse2 Ht :=
  unfold math_ops.add, math_ops.sub, math_ops.mul, math_ops.greater,
    math_ops.neg, math_ops.exp, math_ops.log, math_ops.sigmoid,
    math_ops.sub_scalar, math_ops.scalar_add, math_ops.scalar_sub,
    nn.softplus, nn.sigmoid;
  repeat (rewrite ?fuse; rewrite (fuse2 _ _ _ _ _ _ _ _ Ht); cbn [bind]).

(** * Properties *)

(** ** Lists, shapes and broadcasting *)

Lemma zip_with_length {A B C : Type} (f : A -> B -> C) (l : list A) :
  forall l' : list B, length l = length l' ->
  length (zip_with f l l') = length l.
Proof.
  induction l as [|a l IH]; intros [|b l'] H; simpl in *;
    try discriminate; auto.
Qed.

Lemma zip_with_map {A B C D E : Type} (f : C -> D -> E)
  (g : A -> C) (h : B -> D) (l : list A) :
  forall l' : list B,
  zip_with f (map g l) (map h l') = zip_with (fun a b => f (g a) (h b)) l l'.
Proof.
  induction l as [|a l IH]; intros [|b l']; simpl; auto.
  now rewrite IH.
Qed.

Lemma zip_with_diag {A C : Type} (f : A -> A -> C) (l : list A) :
  zip_with f l l = map (fun a => f a a) l.
Proof. induction l as [|a l IH]; simpl; auto. now rewrite IH. Qed.

Lemma zip_with_map_l {A B C D : Type} (f : C -> B -> D) (g : A -> C)
  (l : list A) (l' : list B) :
  zip_with f (map g l) l' = zip_with (fun a b => f (g a) b) l l'.
Proof.
  revert l'; induction l as [|a l IH]; intros [|b l']; simpl; auto.
  now rewrite IH.
Qed.

Lemma zip_with_map_r {A B C D : Type} (f : A -> C -> D) (g : B -> C)
  (l : list A) (l' : list B) :
  zip_with f l (map g l') = zip_with (fun a b => f a (g b)) l l'.
Proof.
  revert l'; induction l as [|a l IH]; intros [|b l']; simpl; auto.
  now rewrite IH.
Qed.

Lemma map_zip_with {A B C D : Type} (g : C -> D) (f : A -> B -> C)
  (l : list A) (l' : list B) :
  map g (zip_with f l l') = zip_with (fun a b => g (f a b)) l l'.
Proof.
  revert l'; induction l as [|a l IH]; intros [|b l']; simpl; auto.
  now rewrite IH.
Qed.

Lemma zip_with_ext {A B C : Type} (f g : A -> B -> C) (l : list A) :
  forall l' : list B,
  (forall a b, In a l -> In b l' -> f a b = g a b) ->
  zip_with f l l' = zip_with g l l'.
Proof.
  induction l as [|a l IH]; intros [|b l'] H; simpl; auto.
  rewrite (H a b), IH; simpl; auto.
  intros; apply H; simpl; auto.
Qed.

Lemma tile_length {A : Type} (n : nat) (l : list A) :
  length (tile n l) = (n * length l)%nat.
Proof. induction n; simpl; auto. rewrite length_app; lia. Qed.

Lemma in_tile {A : Type} (n : nat) (l : list A) (a : A) :
  In a (tile n l) -> In a l.
Proof.
  induction n; simpl; [tauto|].
  intros H; apply in_app_or in H; tauto.
Qed.

Lemma chunks_concat {A : Type} (k count : nat) :
  forall l : list A, length l = (count * k)%nat ->
  concat (chunks k count l) = l.
Proof.
  induction count as [|c IH]; intros l H; simpl in *.
  - destruct l; simpl in *; auto; discriminate.
  - rewrite IH.
    + apply firstn_skipn.
    + rewrite length_skipn; lia.
Qed.

Lemma chunks_length_each {A : Type} (k count : nat) :
  forall l : list A, length l = (count * k)%nat ->
  Forall (fun c => length c = k) (chunks k count l).
Proof.
  induction count as [|c IH]; intros l H; simpl in *; constructor.
  - rewrite length_firstn; lia.
  - apply IH. rewrite length_skipn; lia.
Qed.

Lemma flat_map_id_on {A : Type} (f : list A -> list A) (ls : list (list A)) :
  Forall (fun c => f c = c) ls -> flat_map f ls = concat ls.
Proof.
  induction 1 as [|c ls Hc _ IH]; simpl; auto.
  now rewrite Hc, IH.
Qed.

Lemma pad_full {A : Type} (one : A) (s : list A) : pad one (length s) s = s.
Proof. unfold pad. now rewrite Nat.sub_diag. Qed.

Lemma pad_length {A : Type} (one : A) (r : nat) (s : list A) :
  (length s <= r)%nat -> length (pad one r s) = r.
Proof. intros H. unfold pad. rewrite length_app, repeat_length. lia. Qed.

Lemma broadcast_dim_same (x : nat) : broadcast_dim x x = Some x.
Proof. unfold broadcast_dim. now rewrite Nat.eqb_refl. Qed.

Lemma broadcast_dims_same (s : list nat) : broadcast_dims s s = Some s.
Proof.
  induction s as [|x s IH]; simpl; auto.
  now rewrite broadcast_dim_same, IH.
Qed.

Lemma broadcast_shape_same (s : list nat) : broadcast_shape s s = Some s.
Proof.
  unfold broadcast_shape. rewrite Nat.max_id, pad_full.
  apply broadcast_dims_same.
Qed.

Lemma broadcast_values_same {A : Type} (s : list nat) :
  forall v : list A, length v = num_elements s -> broadcast_values s s v = v.
Proof.
  induction s as [|n s IH]; intros v H; simpl; auto.
  rewrite Nat.eqb_refl. simpl in H.
  rewrite flat_map_id_on.
  - now apply chunks_concat.
  - eapply Forall_impl; [|apply chunks_length_each; exact H].
    intros c Hc. now apply IH.
Qed.

Lemma broadcast_to_same {A : Type} (t : Tensor A) :
  length (values t) = num_elements (shape t) ->
  broadcast_to (shape t) t = values t.
Proof.
  intros H. unfold broadcast_to. rewrite pad_full.
  now apply broadcast_values_same.
Qed.

Lemma static_broadcast_dim_same (d : tensor_shape.Dimension) :
  tensor_shape.broadcast_dim d d = d.
Proof. destruct d as [n|]; simpl; auto. destruct (Nat.eqb n 1); auto. Qed.

Lemma static_broadcast_shape_same (s : tensor_shape.TensorShape) :
  tensor_shape.broadcast_shape s s = s.
Proof.
  destruct s as [ds|]; simpl; auto.
  rewrite Nat.max_id, pad_full. f_equal.
  rewrite zip_with_diag. rewrite <- (map_id ds) at 2.
  apply map_ext. apply static_broadcast_dim_same.
Qed.

(** Two tensors of one shape: the operation is applied entry by entry. *)
Lemma map2_tensor_same_shape {A B C : Type} (f : A -> B -> C)
  (x : Tensor A) (y : Tensor B) :
  shape y = shape x ->
  length (values x) = num_elements (shape x) ->
  length (values y) = num_elements (shape x) ->
  map2_tensor f x y =
  Ok (mkTensor (tensor_shape.broadcast_shape (get_shape x) (get_shape y))
               (shape x) (zip_with f (values x) (values y))).
Proof.
  intros Hs Hx Hy. unfold map2_tensor.
  rewrite Hs, broadcast_shape_same.
  rewrite (broadcast_to_same x) by exact Hx.
  rewrite <- Hs. rewrite (broadcast_to_same y) by (now rewrite Hs).
  reflexivity.
Qed.

Lemma chunks_count {A : Type} (k count : nat) (l : list A) :
  length (chunks k count l) = count.
Proof. revert l; induction count; intros l; simpl; auto. Qed.

Lemma chunks_map {A B : Type} (f : A -> B) (k count : nat) :
  forall l : list A, chunks k count (map f l) = map (map f) (chunks k count l).
Proof.
  induction count as [|c IH]; intros l; simpl; auto.
  now rewrite firstn_map, skipn_map, IH.
Qed.

Lemma tile_map {A B : Type} (f : A -> B) (n : nat) (l : list A) :
  tile n (map f l) = map f (tile n l).
Proof. induction n; simpl; auto. now rewrite map_app, IHn. Qed.

Lemma flat_map_length_each {A B : Type} (f : A -> list B) (len : nat)
  (ls : list A) :
  Forall (fun c => length (f c) = len) ls ->
  length (flat_map f ls) = (length ls * len)%nat.
Proof.
  induction 1 as [|c ls Hc _ IH]; simpl; auto.
  rewrite length_app, Hc, IH. lia.
Qed.

Lemma broadcast_values_map {A B : Type} (f : A -> B) (target : list nat) :
  forall (src : list nat) (v : list A),
  broadcast_values target src (map f v) =
  map f (broadcast_values target src v).
Proof.
  induction target as [|n t IH]; intros [|m s] v; simpl; auto.
  rewrite chunks_map.
  assert (E : flat_map (broadcast_values t s)
                (map (map f) (chunks (num_elements s) m v)) =
              map f (flat_map (broadcast_values t s)
                       (chunks (num_elements s) m v))).
  { induction (chunks (num_elements s) m v) as [|c cs IHc]; simpl; auto.
    now rewrite map_app, IH, IHc. }
  rewrite E. destruct (Nat.eqb m n); auto. apply tile_map.
Qed.

Lemma broadcast_values_length {A : Type} (target : list nat) :
  forall (src : list nat) (v : list A),
  fits target src -> length v = num_elements src ->
  length (broadcast_values target src v) = num_elements target.
Proof.
  induction target as [|n t IH]; intros src v Hf Hv; inversion Hf; subst.
  - exact Hv.
  - rename y into m, l' into s. simpl in *.
    assert (Hrows : length (flat_map (broadcast_values t s)
                              (chunks (num_elements s) m v)) =
                    (m * num_elements t)%nat).
    { rewrite flat_map_length_each with (len := num_elements t).
      - now rewrite chunks_count.
      - eapply Forall_impl; [|apply chunks_length_each; exact Hv].
        intros c Hc. now apply IH. }
    destruct (Nat.eqb_spec m n) as [->|Hne]; [exact Hrows|].
    rewrite tile_length, Hrows.
    destruct H1 as [->| ->]; [contradiction|lia].
Qed.

Lemma num_elements_pad (r : nat) (s : list nat) :
  num_elements (pad 1%nat r s) = num_elements s.
Proof.
  unfold pad. induction (r - length s)%nat; simpl; auto. lia.
Qed.

Lemma broadcast_dims_fits (a : list nat) :
  forall b c, broadcast_dims a b = Some c -> fits c a /\ fits c b.
Proof.
  induction a as [|x a IH]; intros [|y b] c H; simpl in H; try discriminate.
  - inversion H; subst. split; constructor.
  - destruct (broadcast_dim x y) as [d|] eqn:Hd; try discriminate.
    destruct (broadcast_dims a b) as [r|] eqn:Hr; try discriminate.
    inversion H; subst. destruct (IH _ _ Hr) as [Ha Hb].
    unfold broadcast_dim in Hd.
    destruct (Nat.eqb_spec x y).
    { inversion Hd; subst. split; constructor; auto. }
    destruct (Nat.eqb_spec x 1).
    { inversion Hd; subst. split; constructor; auto. }
    destruct (Nat.eqb_spec y 1); try discriminate.
    inversion Hd; subst. split; constructor; auto.
Qed.

Lemma broadcast_dims_length (a : list nat) :
  forall b c, broadcast_dims a b = Some c ->
  length c = length a /\ length c = length b.
Proof.
  intros b c H. destruct (broadcast_dims_fits _ _ H) as [Ha Hb].
  split; eapply Forall2_length; eassumption.
Qed.

Lemma broadcast_dims_absorb_l (a : list nat) :
  forall b c, broadcast_dims a b = Some c -> broadcast_dims c a = Some c.
Proof.
  induction a as [|x a IH]; intros [|y b] c H; simpl in H; try discriminate.
  - now inversion H.
  - destruct (broadcast_dim x y) as [d|] eqn:Hd; try discriminate.
    destruct (broadcast_dims a b) as [r|] eqn:Hr; try discriminate.
    inversion H; subst. simpl. rewrite (IH _ _ Hr).
    assert (E : broadcast_dim d x = Some d).
    { unfold broadcast_dim in *.
      destruct (Nat.eqb_spec x y).
      { inversion Hd; subst. now rewrite Nat.eqb_refl. }
      destruct (Nat.eqb_spec x 1).
      { inversion Hd; subst.
        destruct (Nat.eqb_spec d 1); reflexivity. }
      destruct (Nat.eqb_spec y 1); try discriminate.
      inversion Hd; subst. now rewrite Nat.eqb_refl. }
    now rewrite E.
Qed.

Lemma broadcast_shape_length (a b c : list nat) :
  broadcast_shape a b = Some c ->
  length c = Nat.max (length a) (length b).
Proof.
  unfold broadcast_shape. intros H.
  apply broadcast_dims_length in H. destruct H as [H _].
  rewrite H. apply pad_length. lia.
Qed.

Lemma broadcast_shape_absorb_l (a b c : list nat) :
  broadcast_shape a b = Some c -> broadcast_shape c a = Some c.
Proof.
  intros H. pose proof (broadcast_shape_length _ _ H) as Hl.
  unfold broadcast_shape in *.
  replace (Nat.max (length c) (length a)) with (length c) by lia.
  rewrite pad_full. rewrite Hl.
  eapply broadcast_dims_absorb_l. exact H.
Qed.

(** The entries of a tensor stretched to a shape it broadcasts to. *)
Lemma broadcast_to_length {A : Type} (x : Tensor A) (b c : list nat) :
  broadcast_shape (shape x) b = Some c ->
  length (values x) = num_elements (shape x) ->
  length (broadcast_to c x) = num_elements c.
Proof.
  intros H Hx. pose proof (broadcast_shape_length _ _ H) as Hl.
  unfold broadcast_to. rewrite Hl.
  apply broadcast_values_length.
  - now apply broadcast_dims_fits in H.
  - now rewrite num_elements_pad.
Qed.

Lemma broadcast_to_length_r {A : Type} (x : Tensor A) (a c : list nat) :
  broadcast_shape a (shape x) = Some c ->
  length (values x) = num_elements (shape x) ->
  length (broadcast_to c x) = num_elements c.
Proof.
  intros H Hx. pose proof (broadcast_shape_length _ _ H) as Hl.
  unfold broadcast_to. rewrite Hl.
  apply broadcast_values_length.
  - now apply broadcast_dims_fits in H.
  - now rewrite num_elements_pad.
Qed.

Lemma broadcast_to_map {A B : Type} (f : A -> B) (c : list nat)
  (x : Tensor A) :
  broadcast_to c (map_tensor f x) = map f (broadcast_to c x).
Proof. unfold broadcast_to. simpl. apply broadcast_values_map. Qed.

(** A tensor stretched along a new leading dimension is tiled. *)
Lemma broadcast_to_leading {A : Type} (n : nat) (x : Tensor A) :
  length (values x) = num_elements (shape x) ->
  broadcast_to (n :: shape x) x = tile n (values x).
Proof.
  intros Hx. unfold broadcast_to, pad. simpl length.
  replace (S (length (shape x)) - length (shape x))%nat with 1%nat by lia.
  simpl. rewrite app_nil_r.
  rewrite firstn_all2 by lia.
  rewrite broadcast_values_same by exact Hx.
  destruct n as [|[|k]]; simpl; rewrite ?app_nil_r; reflexivity.
Qed.

Lemma broadcast_shape_leading (n : nat) (s : list nat) :
  broadcast_shape (n :: s) s = Some (n :: s).
Proof.
  unfold broadcast_shape.
  replace (Nat.max (length (n :: s)) (length s)) with (length (n :: s))
    by (cbn [length]; lia).
  rewrite pad_full. unfold pad.
  replace (length (n :: s) - length s)%nat with 1%nat by (cbn [length]; lia).
  simpl. rewrite broadcast_dims_same.
  destruct n as [|[|k]]; reflexivity.
Qed.

(** ** The real functions behind the operations *)

Local Open Scope R_scope.

Lemma one_plus_exp_pos (x : R) : 0 < 1 + exp x.
Proof. pose proof (exp_pos x). lra. Qed.

Lemma softplus_neg (x : R) : ln (1 + exp (- x)) = ln (1 + exp x) - x.
Proof.
  assert (E : 1 + exp (- x) = (1 + exp x) * exp (- x)).
  { rewrite Rmult_plus_distr_r, <- exp_plus.
    replace (x + - x) with 0 by ring. rewrite exp_0. ring. }
  rewrite E, ln_mult, ln_exp; [ring | apply one_plus_exp_pos | apply exp_pos].
Qed.

Lemma sigmoid_pos (x : R) : 0 < math_ops.sigmoid_ x.
Proof.
  unfold math_ops.sigmoid_. apply Rdiv_lt_0_compat; [lra|].
  apply one_plus_exp_pos.
Qed.

Lemma sigmoid_complement (x : R) :
  1 - math_ops.sigmoid_ x = math_ops.sigmoid_ (- x).
Proof.
  unfold math_ops.sigmoid_. rewrite Ropp_involutive.
  pose proof (exp_pos x) as Hx. pose proof (exp_pos (- x)) as Hn.
  assert (E : exp (- x) = / exp x) by apply exp_Ropp.
  rewrite E. field. split; lra.
Qed.

Lemma sigmoid_lt_1 (x : R) : math_ops.sigmoid_ x < 1.
Proof.
  pose proof (sigmoid_pos (- x)). pose proof (sigmoid_complement x). lra.
Qed.

Lemma sigmoid_in_unit_interval (x : R) : in_unit_interval (math_ops.sigmoid_ x).
Proof.
  pose proof (sigmoid_pos x). pose proof (sigmoid_lt_1 x).
  unfold in_unit_interval. lra.
Qed.

Lemma ln_sigmoid (x : R) : ln (math_ops.sigmoid_ x) = - ln (1 + exp (- x)).
Proof.
  unfold math_ops.sigmoid_. unfold Rdiv. rewrite Rmult_1_l.
  apply ln_Rinv. apply one_plus_exp_pos.
Qed.

Lemma ln_sigmoid_complement (x : R) :
  ln (1 - math_ops.sigmoid_ x) = - ln (1 + exp x).
Proof.
  rewrite sigmoid_complement, ln_sigmoid. now rewrite Ropp_involutive.
Qed.

(** The sigmoid undoes the log-odds of a probability strictly between 0
    and 1. *)
Lemma sigmoid_log_odds (p : R) :
  0 < p < 1 -> math_ops.sigmoid_ (ln (p / (1 - p))) = p.
Proof.
  intros [H0 H1]. unfold math_ops.sigmoid_.
  assert (Hodds : 0 < p / (1 - p)) by (apply Rdiv_lt_0_compat; lra).
  rewrite exp_Ropp, exp_ln by exact Hodds.
  field. split; lra.
Qed.

(** The stable form of the logistic loss is the softplus of the logits less
    the product of logits and target. *)
Lemma logistic_loss_softplus (x z : R) :
  nn.logistic_loss_ x z = nn.softplus_ x - x * z.
Proof.
  unfold nn.logistic_loss_, nn.softplus_.
  destruct (Rle_dec 0 x) as [Hx|Hx].
  - rewrite Rmax_left, Rabs_right by lra. rewrite softplus_neg. ring.
  - rewrite Rmax_right, Rabs_left by lra. rewrite Ropp_involutive. ring.
Qed.

Lemma neg_logistic_loss_log_pmf (x y : R) :
  y = 0 \/ y = 1 ->
  - nn.logistic_loss_ x y = log_pmf (math_ops.sigmoid_ x) y.
Proof.
  intros Hy. rewrite logistic_loss_softplus. unfold log_pmf, nn.softplus_.
  rewrite ln_sigmoid, ln_sigmoid_complement, softplus_neg.
  destruct Hy as [-> | ->]; ring.
Qed.

Lemma entropy_closed_form_reference (x : R) :
  entropy_closed_form x =
  reference_entropy (math_ops.sigmoid_ x) (1 - math_ops.sigmoid_ x).
Proof.
  unfold entropy_closed_form, reference_entropy.
  rewrite ln_sigmoid, ln_sigmoid_complement, softplus_neg. ring.
Qed.

Lemma kl_entry_self (x : R) :
  math_ops.sigmoid_ x * (- nn.softplus_ (- x) + nn.softplus_ (- x)) +
  math_ops.sigmoid_ (- x) * (- nn.softplus_ x + nn.softplus_ x) = 0.
Proof. ring. Qed.

Lemma Rltb_true (x y : R) : x < y -> Rltb x y = true.
Proof. intros H. unfold Rltb. now destruct (Rlt_dec x y). Qed.

Lemma Rltb_false (x y : R) : ~ x < y -> Rltb x y = false.
Proof. intros H. unfold Rltb. now destruct (Rlt_dec x y). Qed.

Lemma Rgtb_iff (x y : R) : Rgtb x y = true <-> x > y.
Proof.
  unfold Rgtb, Rltb. destruct (Rlt_dec y x); split; intros H; auto;
    try discriminate; contradiction.
Qed.

Lemma cast_true_iff (dt : dtypes.DType) (b : bool) :
  math_ops.cast_ dt b = math_ops.cast_ dt true <-> b = true.
Proof.
  split; [|now intros ->].
  destruct dt, b; simpl; intros H; auto; try discriminate; inversion H; lra.
Qed.

Lemma cast_false_iff (dt : dtypes.DType) (b : bool) :
  math_ops.cast_ dt b = math_ops.cast_ dt false <-> b = false.
Proof.
  split; [|now intros ->].
  destruct dt, b; simpl; intros H; auto; try discriminate; inversion H; lra.
Qed.

(** ** What the constructor establishes *)

Lemma truediv_complement (t : Tensor R) :
  length (values t) = num_elements (shape t) ->
  math_ops.truediv t (math_ops.scalar_sub 1 t) =
  Ok (mkTensor (get_shape t) (shape t)
               (map (fun x => x / (1 - x)) (values t))).
Proof.
  intros Ht. unfold math_ops.truediv.
  rewrite map2_tensor_same_shape; simpl; auto.
  - rewrite static_broadcast_shape_same, zip_with_map_r, zip_with_diag.
    reflexivity.
  - now rewrite length_map.
Qed.

Lemma truediv_complement_succeeds (t : Tensor R) :
  succeeds (math_ops.truediv t (math_ops.scalar_sub 1 t)).
Proof.
  unfold math_ops.truediv, map2_tensor. simpl.
  rewrite broadcast_shape_same. eexists; reflexivity.
Qed.

Lemma instance_invariant (d : Bernoulli) :
  is_instance d ->
  well_formed (logits d) /\
  length (values (p d)) = num_elements (shape (logits d)) /\
  shape (p d) = shape (logits d) /\
  q d = math_ops.scalar_sub 1 (p d).
Proof.
  intros (lg & pr & dt & va & ans & Hd & Hlg & Hpr).
  unfold Bernoulli_init, distribution_util.get_logits_and_prob in Hd.
  destruct lg as [l|], pr as [t|]; simpl in Hd; try discriminate.
  - inversion Hd; subst; clear Hd. destruct (Hlg l eq_refl) as [Hl Hs].
    unfold logits, p, q; simpl. repeat split; auto.
    now rewrite length_map.
  - destruct (Hpr t eq_refl) as [Ht Hs].
    rewrite truediv_complement in Hd by exact Ht. simpl in Hd.
    inversion Hd; subst; clear Hd.
    unfold logits, p, q, well_formed, array_ops.identity; simpl.
    repeat split; auto. now rewrite !length_map.
Qed.

Lemma from_logits_is_instance : is_instance from_logits.
Proof.
  exists (Some sample_logits), None, dtypes.int32, false, true.
  split; [reflexivity|]. split; intros t H; inversion H; subst.
  split; reflexivity.
Qed.

Lemma with_p_is_instance (t : Tensor R) :
  well_formed t -> is_instance (with_p t).
Proof.
  intros Ht. exists None, (Some t), dtypes.int32, false, true.
  split; [|split; intros t' H; inversion H; subst; exact Ht].
  unfold Bernoulli_init, distribution_util.get_logits_and_prob.
  rewrite truediv_complement by apply Ht. reflexivity.
Qed.

Lemma vector_well_formed (l : list R) : well_formed (vector l).
Proof.
  split; simpl; [lia|]. now rewrite Nat.eqb_refl.
Qed.

(** ** Construction *)

(** C1: constructing a Bernoulli distribution raises ValueError if and only
    if both of [p] and [logits] are supplied or neither is; when exactly one
    is supplied the construction succeeds, and the other parameter is
    computed from it: [p] is the sigmoid of the logits, the logits are the
    log-odds of [p]. *)
Theorem Bernoulli_init_value_error :
  forall (lg pr : option (Tensor R)) dt va ans,
    (is_value_error (Bernoulli_init lg pr dt va ans) <->
     (lg <> None /\ pr <> None) \/ (lg = None /\ pr = None)) /\
    (forall t, lg = Some t -> pr = None ->
       exists d, Bernoulli_init lg pr dt va ans = Ok d /\
                 logits d = t /\ p d = math_ops.sigmoid t) /\
    (forall t, lg = None -> pr = Some t ->
       exists d odds, Bernoulli_init lg pr dt va ans = Ok d /\
                      p d = t /\
                      math_ops.truediv t (math_ops.scalar_sub 1 t) = Ok odds /\
                      logits d = math_ops.log odds).
Proof.
  intros lg pr dt va ans. split; [|split].
  - unfold is_value_error, Bernoulli_init,
      distribution_util.get_logits_and_prob.
    destruct lg as [l|], pr as [t|]; simpl.
    + split; [intros _; left; split; discriminate | intros _; eauto].
    + split; [intros [msg H]; discriminate | intros [[_ H]|[H _]]];
        [now elim H | discriminate].
    + destruct (truediv_complement_succeeds t) as [odds ->]. simpl.
      split; [intros [msg H]; discriminate | intros [[H _]|[_ H]]];
        [now elim H | discriminate].
    + split; [intros _; right; split; reflexivity | intros _; eauto].
  - intros t -> ->. eexists. split; [reflexivity|]. split; reflexivity.
  - intros t -> ->.
    unfold Bernoulli_init, distribution_util.get_logits_and_prob.
    destruct (truediv_complement_succeeds t) as [odds Ho]. rewrite Ho.
    simpl. eexists; exists odds. repeat split; reflexivity.
Qed.

(** ** Mean and variance *)

(** C2: for every instance whose probability parameter lies in [0,1], the
    stored complement [q] is [1 - p], the mean is [p], and the variance is
    the product [p * q], entry by entry. *)
Theorem q_mean_variance (d : Bernoulli) :
  is_instance d ->
  Forall in_unit_interval (values (p d)) ->
  q d = math_ops.scalar_sub 1 (p d) /\
  values (q d) = map (fun x => 1 - x) (values (p d)) /\
  _mean d = p d /\
  _variance d = math_ops.mul (p d) (q d) /\
  exists v, _variance d = Ok v /\
            shape v = shape (p d) /\
            values v = zip_with Rmult (values (p d)) (values (q d)).
Proof.
  intros Hd _.
  destruct (instance_invariant Hd) as ((Hl & _) & Hp & Hs & Hq).
  assert (Hlp : length (values (p d)) = num_elements (shape (p d)))
    by now rewrite Hs.
  assert (Hlq : length (values (q d)) = num_elements (shape (p d)))
    by (rewrite Hq; simpl; now rewrite length_map).
  assert (Hsq : shape (q d) = shape (p d)) by now rewrite Hq.
  assert (Hvar : _variance d = math_ops.mul (p d) (q d)).
  { unfold _variance, math_ops.mul.
    rewrite (map2_tensor_same_shape Rmult (q d) (p d));
      rewrite ?Hsq; auto.
    rewrite (map2_tensor_same_shape Rmult (p d) (q d)); auto.
    rewrite Hq at 1 3. simpl. rewrite !static_broadcast_shape_same.
    f_equal. f_equal. rewrite Hq. simpl.
    rewrite zip_with_map_l, zip_with_map_r, !zip_with_diag.
    apply map_ext. intros; ring. }
  repeat split; auto.
  - now rewrite Hq.
  - rewrite Hvar. unfold math_ops.mul.
    rewrite (map2_tensor_same_shape Rmult (p d) (q d)); auto.
    eexists; repeat split; reflexivity.
Qed.

(** ** Elementwise computations over one tensor *)

Lemma map_tensor_map {A B C : Type} (f : B -> C) (g : A -> B) (t : Tensor A) :
  map_tensor f (map_tensor g t) = map_tensor (fun x => f (g x)) t.
Proof. unfold map_tensor; simpl. now rewrite map_map. Qed.

Lemma map2_tensor_map {A B C D : Type} (h : B -> C -> D)
  (f : A -> B) (g : A -> C) (t : Tensor A) :
  length (values t) = num_elements (shape t) ->
  map2_tensor h (map_tensor f t) (map_tensor g t) =
  Ok (map_tensor (fun x => h (f x) (g x)) t).
Proof.
  intros Ht.
  rewrite map2_tensor_same_shape; simpl; rewrite ?length_map; auto.
  rewrite static_broadcast_shape_same, zip_with_map, zip_with_diag.
  reflexivity.
Qed.

Lemma Forall2_map_self {A B : Type} (P : A -> B -> Prop) (f : A -> B)
  (l : list A) :
  (forall x, In x l -> P x (f x)) -> Forall2 P l (map f l).
Proof.
  induction l as [|a l IH]; intros H; simpl; constructor.
  - apply H; simpl; auto.
  - apply IH. intros; apply H; simpl; auto.
Qed.

(** ** Mode *)

(** C5: the mode is 1, cast to the sample dtype, in exactly the entries
    where [p > q], and 0 in all others; an entry with [p = q = 1/2] is
    among the others. *)
Theorem mode_entries (d : Bernoulli) :
  is_instance d ->
  exists m,
    _mode d = Ok m /\
    shape m = shape (p d) /\
    values m =
      map (fun x => math_ops.cast_ (dtype d) (Rgtb x (1 - x)))
          (values (p d)) /\
    Forall2 (fun x e =>
               (e = math_ops.cast_ (dtype d) true <-> x > 1 - x) /\
               (e = math_ops.cast_ (dtype d) false <-> ~ x > 1 - x) /\
               (x = 1 / 2 -> e = math_ops.cast_ (dtype d) false))
            (values (p d)) (values m).
Proof.
  intros Hd.
  destruct (instance_invariant Hd) as ((Hl & _) & Hp & Hs & Hq).
  assert (Hlp : length (values (p d)) = num_elements (shape (p d)))
    by now rewrite Hs.
  unfold _mode, math_ops.greater.
  rewrite map2_tensor_same_shape;
    [|now rewrite Hq | exact Hlp | rewrite Hq; simpl; now rewrite length_map].
  cbn [bind]. eexists. split; [reflexivity|]. simpl.
  split; [reflexivity|].
  rewrite Hq. simpl. rewrite zip_with_map_r, zip_with_diag, map_map.
  split; [reflexivity|].
  apply Forall2_map_self. intros x _.
  rewrite cast_true_iff, cast_false_iff. repeat split.
  - apply Rgtb_iff.
  - apply Rgtb_iff.
  - intros H Hx. apply Rgtb_iff in Hx. congruence.
  - intros H. destruct (Rgtb x (1 - x)) eqn:E; auto.
    apply Rgtb_iff in E. contradiction.
  - intros ->.
    destruct (Rgtb (1 / 2) (1 - 1 / 2)) eqn:E; auto.
    apply Rgtb_iff in E. lra.
Qed.

(** ** KL divergence *)

(** C4: the registered KL divergence of an instance from itself is 0 in
    every batch entry. *)
Theorem kl_self_is_zero (a : Bernoulli) :
  is_instance a ->
  exists kl,
    _kl_bernoulli_bernoulli a a = Ok kl /\
    shape kl = _batch_shape a /\
    length (values kl) = num_elements (_batch_shape a) /\
    Forall (fun v => v = 0) (values kl).
Proof.
  intros Ha. destruct (instance_invariant Ha) as ((Hl & _) & _).
  unfold _kl_bernoulli_bernoulli.
  elementwise @map_tensor_map @map2_tensor_map Hl.
  eexists. split; [reflexivity|]. simpl.
  split; [reflexivity|]. split; [now rewrite length_map|].
  apply Forall_map, Forall_forall. intros x _. apply kl_entry_self.
Qed.

(** ** Sampling *)

Lemma constant_uniform_is_generator : is_uniform_generator constant_uniform.
Proof.
  intros s seed. simpl. split; [reflexivity|].
  split; [apply repeat_length|].
  apply Forall_forall. intros u Hu. apply repeat_spec in Hu. subst. lra.
Qed.

Lemma Forall_tile {A : Type} (P : A -> Prop) (n : nat) (l : list A) :
  Forall P l -> Forall P (tile n l).
Proof.
  intros H. apply Forall_forall. intros a Ha.
  apply in_tile in Ha. revert a Ha. now apply Forall_forall.
Qed.

Lemma Forall_zip_with {A B C : Type} (f : A -> B -> C) (P : C -> Prop)
  (l : list A) :
  forall l' : list B,
  (forall a b, In a l -> In b l' -> P (f a b)) ->
  Forall P (zip_with f l l').
Proof.
  induction l as [|a l IH]; intros [|b l'] H; simpl; constructor.
  - apply H; simpl; auto.
  - apply IH. intros; apply H; simpl; auto.
Qed.

Section SamplingProperties.

Variable random_uniform : list nat -> option Z -> Tensor R.
Hypothesis generator : is_uniform_generator random_uniform.

(** What [_sample_n] returns: the noise against the probabilities, these
    repeated once per sample. *)
Lemma sample_n_returns (d : Bernoulli) (n : nat) (seed : option Z) :
  is_instance d ->
  exists t,
    _sample_n random_uniform d n seed = Ok t /\
    shape t = n :: _batch_shape d /\
    values t =
      zip_with (fun u x => math_ops.cast_ (dtype d) (Rltb u x))
               (values (random_uniform (n :: _batch_shape d) seed))
               (tile n (values (p d))) /\
    length (values t) = (n * num_elements (_batch_shape d))%nat.
Proof.
  intros Hd.
  destruct (instance_invariant Hd) as ((Hl & _) & Hp & Hs & Hq).
  destruct (generator (n :: _batch_shape d) seed) as (Hus & Hul & _).
  unfold _sample_n, math_ops.less, map2_tensor, array_ops.concat.
  cbn [app]. rewrite Hus.
  unfold _batch_shape, array_ops.shape_, logits in *. rewrite <- Hs in *.
  rewrite broadcast_shape_leading. cbn [bind].
  eexists. split; [reflexivity|]. simpl shape. simpl values.
  split; [reflexivity|].
  rewrite broadcast_to_leading by exact Hp.
  replace (broadcast_to (n :: shape (p d))
             (random_uniform (n :: shape (p d)) seed))
    with (values (random_uniform (n :: shape (p d)) seed)).
  - rewrite map_zip_with. split; [reflexivity|].
    rewrite zip_with_length; rewrite ?tile_length, Hul, ?Hp; reflexivity.
  - symmetry.
    pose proof (broadcast_to_same (random_uniform (n :: shape (p d)) seed))
      as E.
    rewrite Hus in E. apply E. exact Hul.
Qed.

(** C7: sampling [n] draws uniform noise of shape [[n] + batch_shape],
    compares it entry by entry, strictly, with [p], and casts the boolean
    result to the sample dtype. *)
Theorem sample_n_compares_noise (d : Bernoulli) (n : nat) (seed : option Z) :
  is_instance d ->
  _sample_n random_uniform d n seed =
    (sample <- math_ops.less
                 (random_uniform (array_ops.concat [n] (_batch_shape d)) seed)
                 (p d) ;;
     Ok (math_ops.cast sample (dtype d))) /\
  shape (random_uniform (array_ops.concat [n] (_batch_shape d)) seed) =
    n :: _batch_shape d /\
  exists t,
    _sample_n random_uniform d n seed = Ok t /\
    shape t = n :: _batch_shape d /\
    length (values t) = (n * num_elements (_batch_shape d))%nat /\
    values t =
      zip_with (fun u x => math_ops.cast_ (dtype d) (Rltb u x))
               (values (random_uniform (n :: _batch_shape d) seed))
               (tile n (values (p d))).
Proof.
  intros Hd. split; [reflexivity|]. split; [apply generator|].
  destruct (sample_n_returns n seed Hd) as (t & Ht & Hs & Hv & Hlen).
  exists t. auto.
Qed.

(** C6: for every number of samples and every seed, an instance with
    [p = 1.0] samples 1 in every entry, and one with [p = 0.0] samples 0 in
    every entry. *)
Theorem sample_n_certain (d : Bernoulli) (n : nat) (seed : option Z) :
  is_instance d ->
  exists t,
    _sample_n random_uniform d n seed = Ok t /\
    length (values t) = num_elements (n :: _batch_shape d) /\
    (Forall (fun x => x = 1) (values (p d)) ->
     Forall (fun e => e = math_ops.cast_ (dtype d) true) (values t)) /\
    (Forall (fun x => x = 0) (values (p d)) ->
     Forall (fun e => e = math_ops.cast_ (dtype d) false) (values t)).
Proof.
  intros Hd.
  destruct (sample_n_returns n seed Hd) as (t & Ht & Hs & Hv & Hlen).
  destruct (generator (n :: _batch_shape d) seed) as (_ & _ & Hu).
  exists t. split; [exact Ht|]. split; [exact Hlen|].
  rewrite Forall_forall in Hu.
  split; intros Hp; rewrite Hv; apply Forall_zip_with; intros u x Hin Hx;
    apply in_tile in Hx; rewrite Forall_forall in Hp;
    rewrite (Hp x Hx); f_equal; specialize (Hu u Hin).
  - apply Rltb_true. lra.
  - apply Rltb_false. lra.
Qed.

End SamplingProperties.

(** ** Log-probability and probability *)

Lemma dims_eqb_eq (a : list tensor_shape.Dimension) :
  forall b, tensor_shape.dims_eqb a b = true -> a = b.
Proof.
  induction a as [|x a IH]; intros [|y b] H; simpl in H;
    try discriminate; auto.
  apply andb_prop in H. destruct H as [Hxy Hab].
  rewrite (IH _ Hab). f_equal.
  destruct x, y; simpl in Hxy; try discriminate; auto.
  apply Nat.eqb_eq in Hxy. now subst.
Qed.

Lemma fully_defined_describes (ds : list tensor_shape.Dimension) :
  forall s s',
  forallb tensor_shape.is_known ds = true ->
  tensor_shape.dims_describe ds s = true ->
  tensor_shape.dims_describe ds s' = true ->
  s = s'.
Proof.
  induction ds as [|x ds IH]; intros [|n s] [|n' s'] Hk H H'; simpl in *;
    try discriminate; auto.
  apply andb_prop in Hk, H, H'.
  destruct Hk as [Hx Hk], H as [Hn H], H' as [Hn' H'].
  rewrite (IH _ _ Hk H H'). f_equal.
  destruct x; simpl in *; try discriminate.
  apply Nat.eqb_eq in Hn, Hn'. congruence.
Qed.

(** When neither static shape is in doubt and they agree, the tensors have
    one shape when run. *)
Lemma statically_same_shape {A B : Type} (x : Tensor A) (y : Tensor B) :
  well_formed x -> well_formed y ->
  differ_or_undefined (get_shape x) (get_shape y) = false ->
  shape x = shape y.
Proof.
  intros [_ Hx] [_ Hy] H. unfold differ_or_undefined in H.
  apply orb_false_elim in H. destruct H as [H Hne].
  apply orb_false_elim in H. destruct H as [Hfx Hfy].
  apply negb_false_iff in Hfx, Hfy.
  destruct (get_shape x) as [dx|], (get_shape y) as [dy|];
    try discriminate.
  apply negb_false_iff, dims_eqb_eq in Hne. subst dy.
  eapply fully_defined_describes; eauto.
Qed.

Lemma zip_with_ones_l (l l' : list R) :
  length l = length l' ->
  zip_with Rmult (map (fun _ => 1) l) l' = l'.
Proof.
  revert l'; induction l as [|a l IH]; intros [|b l'] H; simpl in *;
    try discriminate; auto.
  rewrite IH by lia. f_equal. ring.
Qed.

(** The test [_log_prob] makes before broadcasting. *)
Lemma must_broadcast_test (se sl : tensor_shape.TensorShape) :
  (if negb (tensor_shape.is_fully_defined se) then Ok true
   else if negb (tensor_shape.is_fully_defined sl) then Ok true
   else tensor_shape.ne se sl) = Ok (differ_or_undefined se sl).
Proof.
  unfold differ_or_undefined.
  destruct se as [de|], sl as [dl|]; simpl; auto.
  - destruct (forallb tensor_shape.is_known de),
      (forallb tensor_shape.is_known dl); reflexivity.
  - destruct (forallb tensor_shape.is_known de); reflexivity.
Qed.

(** The two multiplications by [ones_like] stretch logits and event to
    their common shape and change no entry. *)
Lemma ones_like_broadcasts (lg ev : Tensor R) (s : list nat) :
  length (values lg) = num_elements (shape lg) ->
  length (values ev) = num_elements (shape ev) ->
  broadcast_shape (shape ev) (shape lg) = Some s ->
  exists lg' ev',
    math_ops.mul (array_ops.ones_like ev) lg = Ok lg' /\
    math_ops.mul (array_ops.ones_like lg') ev = Ok ev' /\
    shape lg' = s /\ values lg' = broadcast_to s lg /\
    shape ev' = s /\ values ev' = broadcast_to s ev.
Proof.
  intros Hlg Hev Hs.
  pose proof (broadcast_to_length ev _ Hs Hev) as Hle.
  pose proof (broadcast_to_length_r lg _ Hs Hlg) as Hll.
  unfold math_ops.mul, map2_tensor, array_ops.ones_like.
  cbn [shape map_tensor]. rewrite Hs.
  eexists; eexists. split; [reflexivity|].
  cbn [shape]. rewrite (broadcast_shape_absorb_l _ _ Hs).
  split; [reflexivity|]. cbn [shape values].
  rewrite !broadcast_to_map.
  assert (E : zip_with Rmult (map (fun _ => 1) (broadcast_to s ev))
                (broadcast_to s lg) = broadcast_to s lg)
    by (apply zip_with_ones_l; congruence).
  rewrite E. repeat split; auto.
  apply zip_with_ones_l. unfold broadcast_to at 1. cbn [shape values].
  rewrite pad_full, broadcast_values_same; congruence.
Qed.

(** The probabilities of an instance with finite logits are the sigmoids
    of its logits. *)
Lemma p_is_sigmoid_of_logits (d : Bernoulli) :
  is_instance d -> finite_logits d ->
  values (p d) = map math_ops.sigmoid_ (values (logits d)).
Proof.
  intros (lg & pr & dt & va & ans & Hd & Hlg & Hpr) Hfin.
  unfold Bernoulli_init, distribution_util.get_logits_and_prob in Hd.
  destruct lg as [l|], pr as [t|]; simpl in Hd; try discriminate.
  - inversion Hd; subst; reflexivity.
  - destruct (Hpr t eq_refl) as [Ht Hs].
    rewrite truediv_complement in Hd by exact Ht. simpl in Hd.
    inversion Hd; subst; clear Hd.
    unfold finite_logits, p, logits, array_ops.identity in *; simpl in *.
    rewrite !map_map. rewrite <- (map_id (values t)) at 1.
    apply map_ext_in. intros x Hx. symmetry. apply sigmoid_log_odds.
    rewrite Forall_forall in Hfin. now apply Hfin.
Qed.

Lemma cross_entropy_same_shape (x z : Tensor R) :
  shape z = shape x ->
  nn.sigmoid_cross_entropy_with_logits x z =
  Ok (mkTensor (get_shape x) (shape x)
               (zip_with nn.logistic_loss_ (values x) (values z))).
Proof.
  intros H. unfold nn.sigmoid_cross_entropy_with_logits.
  destruct (list_eq_dec Nat.eq_dec (shape z) (shape x)); [reflexivity|].
  contradiction.
Qed.

Lemma log_prob_returns (d : Bernoulli) (e : Tensor Scalar) (s : list nat) :
  is_instance d -> well_formed e ->
  broadcast_shape (shape e) (shape (logits d)) = Some s ->
  exists lg' ev' loss,
    (if differ_or_undefined (get_shape e) (get_shape (logits d))
     then math_ops.mul (array_ops.ones_like (math_ops.to_float e))
                       (logits d) = Ok lg' /\
          math_ops.mul (array_ops.ones_like lg') (math_ops.to_float e)
            = Ok ev'
     else lg' = logits d /\ ev' = math_ops.to_float e) /\
    shape lg' = s /\ values lg' = broadcast_to s (logits d) /\
    shape ev' = s /\ values ev' = broadcast_to s (math_ops.to_float e) /\
    nn.sigmoid_cross_entropy_with_logits lg' ev' = Ok loss /\
    values loss = zip_with nn.logistic_loss_ (values lg') (values ev') /\
    shape loss = s /\
    _log_prob d e = Ok (math_ops.neg loss).
Proof.
  intros Hd He Hs.
  destruct (instance_invariant Hd) as (Hwl & _).
  assert (Hwe : well_formed (math_ops.to_float e)).
  { destruct He as [H1 H2]. split; simpl; auto. now rewrite length_map. }
  unfold _log_prob. rewrite must_broadcast_test.
  change (get_shape (math_ops.to_float e)) with (get_shape e).
  destruct (differ_or_undefined (get_shape e) (get_shape (logits d)))
    eqn:Hb; cbn [bind].
  - destruct (ones_like_broadcasts (logits d) (math_ops.to_float e))
      with (s := s) as (lg' & ev' & H1 & H2 & Hsl & Hvl & Hse & Hve);
      [apply Hwl | apply Hwe | exact Hs |].
    rewrite H1. cbn [bind]. rewrite H2. cbn [bind fst snd].
    rewrite cross_entropy_same_shape by congruence. cbn [bind].
    exists lg', ev'. eexists.
    split; [split; auto|]. do 4 (split; [assumption|]).
    split; [apply cross_entropy_same_shape; congruence|].
    repeat split; auto.
  - pose proof (statically_same_shape Hwe Hwl Hb) as Hsame.
    assert (s = shape (logits d)) as ->.
    { simpl shape in Hsame. rewrite Hsame, broadcast_shape_same in Hs.
      now inversion Hs. }
    cbn [fst snd].
    rewrite cross_entropy_same_shape by exact Hsame. cbn [bind].
    exists (logits d), (math_ops.to_float e). eexists.
    split; [split; reflexivity|]. split; [reflexivity|].
    split; [symmetry; apply broadcast_to_same, Hwl|].
    split; [exact Hsame|].
    split; [symmetry; rewrite <- Hsame;
            apply (broadcast_to_same (math_ops.to_float e)), Hwe|].
    split; [now apply cross_entropy_same_shape|].
    repeat split; reflexivity.
Qed.

Lemma Forall_chunks {A : Type} (P : A -> Prop) (k count : nat) :
  forall l : list A, Forall P l -> Forall (Forall P) (chunks k count l).
Proof.
  induction count as [|c IH]; intros l H; simpl; constructor;
    rewrite <- (firstn_skipn k l) in H; apply Forall_app in H.
  - apply H.
  - apply IH, H.
Qed.

Lemma Forall_broadcast_values {A : Type} (P : A -> Prop) (target : list nat) :
  forall (src : list nat) (v : list A),
  Forall P v -> Forall P (broadcast_values target src v).
Proof.
  induction target as [|n t IH]; intros [|m s] v H; simpl; auto.
  assert (Hrows : Forall P (flat_map (broadcast_values t s)
                              (chunks (num_elements s) m v))).
  { apply Forall_flat_map.
    eapply Forall_impl; [|apply Forall_chunks; exact H].
    intros c Hc. now apply IH. }
  destruct (Nat.eqb m n); auto. now apply Forall_tile.
Qed.

Lemma broadcast_to_values {A B : Type} (f : A -> B) (s : list nat)
  (x : Tensor B) (y : Tensor A) :
  shape x = shape y -> values x = map f (values y) ->
  broadcast_to s x = map f (broadcast_to s y).
Proof.
  intros Hs Hv. unfold broadcast_to. rewrite Hs, Hv.
  apply broadcast_values_map.
Qed.

(** C8: the log-probability broadcasts event and logits to a common shape
    when their static shapes differ or are not fully defined, and returns
    the negated sigmoid cross-entropy of the broadcast logits and event;
    for finite logits and events in {0,1} the entries are
    [y * log p + (1 - y) * log (1 - p)]. *)
Theorem log_prob_is_cross_entropy
  (d : Bernoulli) (e : Tensor Scalar) (s : list nat) :
  is_instance d -> well_formed e ->
  broadcast_shape (shape e) (shape (logits d)) = Some s ->
  exists lg' ev' loss,
    (if differ_or_undefined (get_shape e) (get_shape (logits d))
     then math_ops.mul (array_ops.ones_like (math_ops.to_float e))
                       (logits d) = Ok lg' /\
          math_ops.mul (array_ops.ones_like lg') (math_ops.to_float e)
            = Ok ev'
     else lg' = logits d /\ ev' = math_ops.to_float e) /\
    shape lg' = s /\ values lg' = broadcast_to s (logits d) /\
    shape ev' = s /\ values ev' = broadcast_to s (math_ops.to_float e) /\
    nn.sigmoid_cross_entropy_with_logits lg' ev' = Ok loss /\
    _log_prob d e = Ok (math_ops.neg loss) /\
    shape (math_ops.neg loss) = s /\
    (finite_logits d -> Forall is_binary (values e) ->
     values (math_ops.neg loss) =
       zip_with log_pmf (broadcast_to s (p d))
                        (broadcast_to s (math_ops.to_float e))).
Proof.
  intros Hd He Hs.
  destruct (log_prob_returns Hd He Hs)
    as (lg' & ev' & loss & Hbr & Hsl & Hvl & Hse & Hve & Hce & Hvloss
        & Hsloss & Hlp).
  exists lg', ev', loss. do 7 (split; [assumption|]).
  split; [exact Hsloss|].
  intros Hfin Hbin.
  destruct (instance_invariant Hd) as (_ & _ & Hsp & _).
  rewrite (broadcast_to_values math_ops.sigmoid_ s (p d) (logits d) Hsp
             (p_is_sigmoid_of_logits Hd Hfin)).
  simpl. rewrite Hvloss, Hvl, Hve, map_zip_with, zip_with_map_l.
  apply zip_with_ext. intros x y _ Hy.
  apply neg_logistic_loss_log_pmf.
  assert (Hall : Forall (fun y => y = 0 \/ y = 1)
                   (broadcast_to s (math_ops.to_float e))).
  { apply Forall_broadcast_values. simpl. apply Forall_map. exact Hbin. }
  rewrite Forall_forall in Hall. now apply Hall.
Qed.

(** C3: for events in {0,1}, the probability is the exponential of the
    log-probability of the same event. *)
Theorem prob_is_exp_log_prob
  (d : Bernoulli) (e : Tensor Scalar) (s : list nat) :
  is_instance d -> well_formed e -> Forall is_binary (values e) ->
  broadcast_shape (shape e) (shape (logits d)) = Some s ->
  exists lp,
    _log_prob d e = Ok lp /\
    _prob d e = Ok (math_ops.exp lp) /\
    shape (math_ops.exp lp) = shape lp /\
    values (math_ops.exp lp) = map exp (values lp).
Proof.
  intros Hd He _ Hs.
  destruct (log_prob_returns Hd He Hs)
    as (lg' & ev' & loss & _ & _ & _ & _ & _ & _ & _ & _ & Hlp).
  exists (math_ops.neg loss). split; [exact Hlp|].
  unfold _prob. rewrite Hlp. repeat split; reflexivity.
Qed.

(** ** Sigmoid-parameterized variant *)

(** C10: for every raw parameter [x] and the same dtype and flags,
    [BernoulliWithSigmoidP] constructs the distribution the base class
    constructs from [p = sigmoid x], so every operation of the two agrees. *)
Theorem sigmoid_p_is_base_with_sigmoid :
  forall (x : Tensor R) dt va ans,
  exists d,
    BernoulliWithSigmoidP_init x dt va ans = Ok d /\
    p d = math_ops.sigmoid x /\
    forall d',
      Bernoulli_init None (Some (math_ops.sigmoid x)) dt va ans = Ok d' ->
      p d = p d' /\ q d = q d' /\ logits d = logits d' /\
      dtype d = dtype d' /\
      _mean d = _mean d' /\ _variance d = _variance d' /\
      _std d = _std d' /\ _mode d = _mode d' /\
      _entropy d = _entropy d' /\
      (forall e, _log_prob d e = _log_prob d' e) /\
      (forall e, _prob d e = _prob d' e) /\
      (forall random_uniform n seed,
         _sample_n random_uniform d n seed =
         _sample_n random_uniform d' n seed).
Proof.
  intros x dt va ans.
  destruct (Bernoulli_init None (Some (math_ops.sigmoid x)) dt va ans)
    as [d|err] eqn:Hbase.
  - exists d. split; [exact Hbase|]. split.
    + unfold Bernoulli_init, distribution_util.get_logits_and_prob in Hbase.
      destruct (math_ops.truediv _ _); simpl in Hbase; try discriminate.
      now inversion Hbase.
    + intros d' Hd'. inversion Hd'; subst d'. repeat split; reflexivity.
  - exfalso.
    unfold Bernoulli_init, distribution_util.get_logits_and_prob in Hbase.
    destruct (truediv_complement_succeeds (math_ops.sigmoid x)) as [o Ho].
    rewrite Ho in Hbase. discriminate.
Qed.

(** ** The properties at the sample instances *)

Lemma from_probs_is_instance : is_instance from_probs.
Proof. apply with_p_is_instance, vector_well_formed. Qed.

Lemma sample_event_well_formed : well_formed sample_event.
Proof. split; reflexivity. Qed.

Lemma sample_event_is_binary : Forall is_binary (values sample_event).
Proof.
  unfold is_binary. simpl.
  repeat (constructor; [(left; reflexivity) || (right; reflexivity)|]).
  constructor.
Qed.

Lemma from_logits_finite : finite_logits from_logits.
Proof.
  unfold finite_logits. simpl.
  repeat constructor; try apply sigmoid_pos; apply sigmoid_lt_1.
Qed.

Lemma q_mean_variance_witness :
  is_instance from_probs /\
  Forall in_unit_interval (values (p from_probs)) /\
  values (q from_probs) = map (fun x => 1 - x) (values (p from_probs)) /\
  _mean from_probs = p from_probs /\
  _variance from_probs = math_ops.mul (p from_probs) (q from_probs).
Proof.
  assert (Hp : Forall in_unit_interval (values (p from_probs))).
  { simpl. repeat constructor; unfold in_unit_interval; lra. }
  split; [exact from_probs_is_instance|]. split; [exact Hp|].
  destruct (q_mean_variance from_probs_is_instance Hp)
    as (_ & Hq & Hm & Hv & _).
  auto.
Defined.

Lemma prob_is_exp_log_prob_witness :
  exists lp,
    _log_prob from_logits sample_event = Ok lp /\
    _prob from_logits sample_event = Ok (math_ops.exp lp).
Proof.
  destruct (@prob_is_exp_log_prob from_logits sample_event [2; 3]%nat
              from_logits_is_instance sample_event_well_formed
              sample_event_is_binary eq_refl)
    as (lp & Hlp & Hp & _).
  exists lp. auto.
Defined.

Lemma kl_self_is_zero_witness :
  is_instance from_logits /\
  exists kl,
    _kl_bernoulli_bernoulli from_logits from_logits = Ok kl /\
    Forall (fun v => v = 0) (values kl).
Proof.
  split; [exact from_logits_is_instance|].
  destruct (kl_self_is_zero from_logits_is_instance)
    as (kl & Hkl & _ & _ & Hz).
  exists kl. auto.
Defined.

Lemma mode_entries_witness :
  is_instance from_probs /\
  exists m,
    _mode from_probs = Ok m /\
    values m =
      map (fun x => math_ops.cast_ dtypes.int32 (Rgtb x (1 - x)))
          [1 / 2; 1 / 4; 3 / 4].
Proof.
  split; [exact from_probs_is_instance|].
  destruct (mode_entries from_probs_is_instance) as (m & Hm & _ & Hv & _).
  exists m. auto.
Defined.

Lemma sample_n_certain_witness :
  is_uniform_generator constant_uniform /\
  is_instance always_one /\ is_instance never_one /\
  (exists t,
     _sample_n constant_uniform always_one 2 None = Ok t /\
     length (values t) = 4%nat /\
     Forall (fun e => e = SInt 1) (values t)) /\
  (exists t,
     _sample_n constant_uniform never_one 2 None = Ok t /\
     length (values t) = 4%nat /\
     Forall (fun e => e = SInt 0) (values t)).
Proof.
  assert (H1 : is_instance always_one)
    by apply with_p_is_instance, vector_well_formed.
  assert (H0 : is_instance never_one)
    by apply with_p_is_instance, vector_well_formed.
  split; [exact constant_uniform_is_generator|].
  split; [exact H1|]. split; [exact H0|]. split.
  - destruct (sample_n_certain constant_uniform_is_generator 2 None H1)
      as (t & Ht & Hlen & Hone & _).
    exists t. split; [exact Ht|]. split; [exact Hlen|].
    apply Hone. simpl. repeat constructor.
  - destruct (sample_n_certain constant_uniform_is_generator 2 None H0)
      as (t & Ht & Hlen & _ & Hzero).
    exists t. split; [exact Ht|]. split; [exact Hlen|].
    apply Hzero. simpl. repeat constructor.
Defined.

Lemma sample_n_compares_noise_witness :
  is_uniform_generator constant_uniform /\
  is_instance from_probs /\
  exists t,
    _sample_n constant_uniform from_probs 2 None = Ok t /\
    shape t = [2; 3]%nat.
Proof.
  split; [exact constant_uniform_is_generator|].
  split; [exact from_probs_is_instance|].
  destruct (sample_n_compares_noise constant_uniform_is_generator 2 None
              from_probs_is_instance)
    as (_ & _ & t & Ht & Hs & _).
  exists t. auto.
Defined.

Lemma log_prob_is_cross_entropy_witness :
  is_instance from_logits /\ well_formed sample_event /\
  exists lp,
    _log_prob from_logits sample_event = Ok lp /\
    shape lp = [2; 3]%nat /\
    values lp =
      zip_with log_pmf
        (broadcast_to [2; 3]%nat (p from_logits))
        (broadcast_to [2; 3]%nat (math_ops.to_float sample_event)).
Proof.
  split; [exact from_logits_is_instance|].
  split; [exact sample_event_well_formed|].
  destruct (@log_prob_is_cross_entropy from_logits sample_event [2; 3]%nat
              from_logits_is_instance sample_event_well_formed eq_refl)
    as (lg' & ev' & loss & _ & _ & _ & _ & _ & _ & Hlp & Hs & Hv).
  exists (math_ops.neg loss). split; [exact Hlp|]. split; [exact Hs|].
  exact (Hv from_logits_finite sample_event_is_binary).
Defined.

(** ** The operations run on small inputs *)

Example broadcast_shape_row :
  broadcast_shape [2; 3]%nat [3]%nat = Some [2; 3]%nat.
Proof. reflexivity. Qed.

Example broadcast_shape_mismatch :
  broadcast_shape [2; 3]%nat [2]%nat = None.
Proof. reflexivity. Qed.

Example broadcast_to_column :
  broadcast_to [2; 3]%nat (mkTensor None [2; 1]%nat [10; 20]%nat) =
  [10; 10; 10; 20; 20; 20]%nat.
Proof. reflexivity. Qed.

Example broadcast_to_row :
  broadcast_to [2; 3]%nat (mkTensor None [3]%nat [10; 20; 30]%nat) =
  [10; 20; 30; 10; 20; 30]%nat.
Proof. reflexivity. Qed.

Example init_with_neither :
  Bernoulli_init None None dtypes.int32 false true =
  Raise (ValueError "Must pass p or logits.").
Proof. reflexivity. Qed.

Example init_with_both :
  Bernoulli_init (Some sample_logits) (Some sample_probs)
                 dtypes.int32 false true =
  Raise (ValueError "Must pass either p or logits, not both.").
Proof. reflexivity. Qed.

Example init_with_logits :
  Bernoulli_init (Some sample_logits) None dtypes.int32 false true =
  Ok from_logits.
Proof. reflexivity. Qed.

Example mode_of_from_probs :
  exists m, _mode from_probs = Ok m /\
            shape m = [3]%nat /\
            values m = [SInt 0; SInt 0; SInt 1].
Proof.
  assert (H1 : Rgtb (1 / 2) (1 - 1 / 2) = false)
    by (apply Rltb_false; lra).
  assert (H2 : Rgtb (1 / 4) (1 - 1 / 4) = false)
    by (apply Rltb_false; lra).
  assert (H3 : Rgtb (3 / 4) (1 - 3 / 4) = true)
    by (apply Rltb_true; lra).
  eexists. split; [reflexivity|]. split; [reflexivity|].
  cbn. now rewrite H1, H2, H3.
Qed.

Example log_prob_of_mismatched_event :
  _log_prob from_logits
    (mkTensor (tensor_shape.as_shape [2]%nat) [2]%nat [SInt 1; SInt 0]) =
  Raise (ValueError "Dimensions must be equal").
Proof. reflexivity. Qed.

Example log_prob_of_mismatched_event_of_unknown_shape :
  _log_prob from_logits
    (mkTensor tensor_shape.unknown_shape [2]%nat [SInt 1; SInt 0]) =
  Raise (InvalidArgumentError "Incompatible shapes").
Proof. reflexivity. Qed.

(** * Further properties of the operations *)

(** ** Real inequalities *)

Lemma ln_le_minus_1 (y : R) : 0 < y -> ln y <= y - 1.
Proof.
  intros Hy. pose proof (exp_ineq1_le (ln y)) as H.
  rewrite exp_ln in H by exact Hy. lra.
Qed.

Lemma ln_neg_below_1 (y : R) : 0 < y < 1 -> ln y < 0.
Proof.
  intros [H0 H1]. rewrite <- ln_1. now apply ln_increasing.
Qed.

Lemma x_ln_2x_lower (a : R) : 0 < a -> a - 1 / 2 <= a * ln (2 * a).
Proof.
  intros Ha.
  assert (H2a : 0 < 2 * a) by lra.
  pose proof (ln_le_minus_1 (Rinv_0_lt_compat _ H2a)) as H.
  rewrite ln_Rinv in H by exact H2a.
  assert (E : a * / (2 * a) = 1 / 2) by (field; lra).
  assert (Hm : a * - ln (2 * a) <= a * (/ (2 * a) - 1))
    by (apply Rmult_le_compat_l; lra).
  rewrite Rmult_minus_distr_l, E in Hm. lra.
Qed.

Lemma reference_entropy_bounds (a : R) :
  0 < a < 1 -> 0 < reference_entropy a (1 - a) <= ln 2.
Proof.
  intros [H0 H1]. unfold reference_entropy.
  assert (Hla : ln a < 0) by (apply ln_neg_below_1; lra).
  assert (Hlb : ln (1 - a) < 0) by (apply ln_neg_below_1; lra).
  split.
  - assert (0 < a * - ln a) by (apply Rmult_lt_0_compat; lra).
    assert (0 < (1 - a) * - ln (1 - a)) by (apply Rmult_lt_0_compat; lra).
    lra.
  - pose proof (x_ln_2x_lower H0) as Ha.
    assert (Hb0 : 0 < 1 - a) by lra.
    pose proof (x_ln_2x_lower Hb0) as Hb.
    rewrite ln_mult in Ha, Hb by lra. lra.
Qed.

Lemma entropy_closed_form_bounds (x : R) :
  0 < entropy_closed_form x <= ln 2.
Proof.
  rewrite entropy_closed_form_reference.
  apply reference_entropy_bounds.
  split; [apply sigmoid_pos | apply sigmoid_lt_1].
Qed.

Lemma entropy_closed_form_even (x : R) :
  entropy_closed_form (- x) = entropy_closed_form x.
Proof.
  rewrite !entropy_closed_form_reference.
  rewrite <- (sigmoid_complement x).
  unfold reference_entropy.
  replace (1 - (1 - math_ops.sigmoid_ x)) with (math_ops.sigmoid_ x) by ring.
  ring.
Qed.

Lemma variance_entry_bounds (a : R) :
  in_unit_interval a -> 0 <= (1 - a) * a <= 1 / 4.
Proof.
  unfold in_unit_interval. intros [H0 H1]. split.
  - apply Rmult_le_pos; lra.
  - pose proof (Rle_0_sqr (a - 1 / 2)) as H. unfold Rsqr in H. lra.
Qed.

Lemma sqrt_quarter : sqrt (1 / 4) = 1 / 2.
Proof.
  replace (1 / 4) with ((1 / 2) * (1 / 2)) by lra.
  apply sqrt_square. lra.
Qed.

(** ** What the statistics return *)

Lemma with_logits_is_instance (t : Tensor R) :
  well_formed t -> is_instance (with_logits t).
Proof.
  intros Ht. exists (Some t), None, dtypes.int32, false, true.
  split; [reflexivity|].
  split; intros t' H; inversion H; subst; exact Ht.
Qed.

Lemma variance_returns (d : Bernoulli) :
  is_instance d ->
  exists v,
    _variance d = Ok v /\ shape v = shape (p d) /\
    values v = map (fun x => (1 - x) * x) (values (p d)).
Proof.
  intros Hd.
  destruct (instance_invariant Hd) as ((Hl & _) & Hp & Hs & Hq).
  unfold _variance, math_ops.mul.
  rewrite (map2_tensor_same_shape Rmult (q d) (p d)).
  - eexists. split; [reflexivity|]. rewrite Hq. simpl.
    split; [reflexivity|]. now rewrite zip_with_map_l, zip_with_diag.
  - now rewrite Hq.
  - rewrite Hq. simpl. now rewrite length_map, Hs.
  - rewrite Hq. simpl. now rewrite Hs.
Qed.

Lemma entropy_returns (d : Bernoulli) :
  is_instance d ->
  exists h,
    _entropy d = Ok h /\ shape h = shape (logits d) /\
    values h = map entropy_closed_form (values (logits d)).
Proof.
  intros Hd. destruct (instance_invariant Hd) as ((Hl & _) & _).
  unfold _entropy. elementwise @map_tensor_map @map2_tensor_map Hl.
  eexists. repeat split; reflexivity.
Qed.

(** X1: for probabilities in [0,1] the variance lies between 0 and 1/4 in
    every batch entry. *)
Theorem variance_bounds (d : Bernoulli) :
  is_instance d ->
  Forall in_unit_interval (values (p d)) ->
  exists v,
    _variance d = Ok v /\
    length (values v) = length (values (p d)) /\
    Forall (fun x => 0 <= x <= 1 / 4) (values v).
Proof.
  intros Hd Hp. destruct (variance_returns Hd) as (v & Hv & _ & Hval).
  exists v. split; [exact Hv|]. rewrite Hval.
  split; [apply length_map|].
  apply Forall_map. eapply Forall_impl; [|exact Hp].
  apply variance_entry_bounds.
Qed.

(** X2: for probabilities in [0,1] the standard deviation is the
    non-negative root of the variance: its square is the variance entry by
    entry, and it lies between 0 and 1/2. *)
Theorem std_is_root_of_variance (d : Bernoulli) :
  is_instance d ->
  Forall in_unit_interval (values (p d)) ->
  exists v s,
    _variance d = Ok v /\ _std d = Ok s /\
    shape s = shape v /\
    map (fun x => x * x) (values s) = values v /\
    Forall (fun x => 0 <= x <= 1 / 2) (values s).
Proof.
  intros Hd Hp. destruct (variance_returns Hd) as (v & Hv & _ & Hval).
  exists v, (math_ops.sqrt v). split; [exact Hv|].
  split; [unfold _std; now rewrite Hv|]. split; [reflexivity|].
  assert (Hb : Forall (fun x => 0 <= x <= 1 / 4) (values v)).
  { rewrite Hval. apply Forall_map. eapply Forall_impl; [|exact Hp].
    apply variance_entry_bounds. }
  simpl. split.
  - rewrite map_map. rewrite <- (map_id (values v)) at 2.
    apply map_ext_in. intros x Hx. rewrite Forall_forall in Hb.
    apply sqrt_sqrt. now apply Hb.
  - apply Forall_map. eapply Forall_impl; [|exact Hb].
    intros x [H0 H1]. split; [apply sqrt_pos|].
    rewrite <- sqrt_quarter. now apply sqrt_le_1_alt.
Qed.

(** X4: negating the logits leaves the entropy unchanged, for logits within
    the range of [exp] on both sides. *)
Theorem entropy_of_negated_logits (t : Tensor R) dt dt' va va' ans ans' :
  well_formed t ->
  exp_in_range t -> exp_in_range (math_ops.neg t) ->
  exists d d' h h',
    Bernoulli_init (Some t) None dt va ans = Ok d /\
    Bernoulli_init (Some (math_ops.neg t)) None dt' va' ans' = Ok d' /\
    _entropy d = Ok h /\ _entropy d' = Ok h' /\
    shape h' = shape h /\ values h' = values h.
Proof.
  intros Ht _ _.
  assert (Ht' : well_formed (math_ops.neg t)).
  { destruct Ht as [H1 H2]. split; simpl; auto. now rewrite length_map. }
  assert (Hd : is_instance
                 (mkBernoulli t (math_ops.sigmoid t)
                    (math_ops.scalar_sub 1 (math_ops.sigmoid t)) dt va ans)).
  { exists (Some t), None, dt, va, ans. split; [reflexivity|].
    split; intros t0 H; inversion H; subst; exact Ht. }
  assert (Hd' : is_instance
                  (mkBernoulli (math_ops.neg t)
                     (math_ops.sigmoid (math_ops.neg t))
                     (math_ops.scalar_sub 1
                        (math_ops.sigmoid (math_ops.neg t)))
                     dt' va' ans')).
  { exists (Some (math_ops.neg t)), None, dt', va', ans'.
    split; [reflexivity|].
    split; intros t0 H; inversion H; subst; exact Ht'. }
  destruct (entropy_returns Hd) as (h & Hh & Hs & Hv).
  destruct (entropy_returns Hd') as (h' & Hh' & Hs' & Hv').
  do 4 eexists. split; [reflexivity|]. split; [reflexivity|].
  split; [exact Hh|]. split; [exact Hh'|].
  split; [now rewrite Hs, Hs'|].
  rewrite Hv, Hv'. unfold logits. simpl. rewrite map_map.
  apply map_ext. apply entropy_closed_form_even.
Qed.

(** ** Log-probability: errors, shapes and signs *)

Lemma to_float_well_formed (e : Tensor Scalar) :
  well_formed e -> well_formed (math_ops.to_float e).
Proof.
  intros [H1 H2]. split; simpl; auto. now rewrite length_map.
Qed.

Lemma fully_defined_is_as_shape (ds : list tensor_shape.Dimension) :
  forall s,
  forallb tensor_shape.is_known ds = true ->
  tensor_shape.dims_describe ds s = true ->
  ds = map Some s.
Proof.
  induction ds as [|x ds IH]; intros [|n s] Hk H; simpl in *;
    try discriminate; auto.
  apply andb_prop in Hk, H. destruct Hk as [Hx Hk], H as [Hn H].
  rewrite (IH _ Hk H). f_equal.
  destruct x; simpl in *; try discriminate.
  apply Nat.eqb_eq in Hn. now subst.
Qed.

Lemma pad_map {A B : Type} (f : A -> B) (one : A) (r : nat) (s : list A) :
  pad (f one) r (map f s) = map f (pad one r s).
Proof.
  unfold pad. now rewrite length_map, map_app, map_repeat.
Qed.

Lemma dims_conflict_of_broadcast (a : list nat) :
  forall b,
  broadcast_dims a b = None -> length a = length b ->
  existsb (fun c => c)
    (zip_with tensor_shape.dim_conflict (map Some a) (map Some b)) = true.
Proof.
  induction a as [|x a IH]; intros [|y b] H Hl; simpl in *;
    try discriminate.
  unfold broadcast_dim in H.
  destruct (Nat.eqb x y) eqn:Exy; simpl.
  - destruct (broadcast_dims a b) eqn:Hr; [discriminate|].
    apply IH; auto.
  - destruct (Nat.eqb x 1) eqn:Ex; simpl.
    + destruct (broadcast_dims a b) eqn:Hr; [discriminate|].
      apply IH; auto.
    + destruct (Nat.eqb y 1) eqn:Ey; simpl; [|reflexivity].
      destruct (broadcast_dims a b) eqn:Hr; [discriminate|].
      apply IH; auto.
Qed.

(** Fully defined static shapes show every shape mismatch. *)
Lemma fully_defined_conflict {A B : Type} (x : Tensor A) (y : Tensor B) :
  well_formed x -> well_formed y ->
  tensor_shape.is_fully_defined (get_shape x) = true ->
  tensor_shape.is_fully_defined (get_shape y) = true ->
  broadcast_shape (shape x) (shape y) = None ->
  shape_error (get_shape x) (get_shape y) =
  ValueError "Dimensions must be equal".
Proof.
  intros [_ Hx] [_ Hy] Hfx Hfy Hs. unfold shape_error.
  destruct (get_shape x) as [dx|], (get_shape y) as [dy|];
    try discriminate.
  simpl in Hfx, Hfy, Hx, Hy.
  rewrite (@fully_defined_is_as_shape dx _ Hfx Hx).
  rewrite (@fully_defined_is_as_shape dy _ Hfy Hy).
  unfold tensor_shape.is_conflicting. rewrite !length_map.
  rewrite !(pad_map Some). unfold broadcast_shape in Hs.
  rewrite dims_conflict_of_broadcast; auto.
  rewrite !pad_length; lia.
Qed.

(** X5: an event whose shape does not broadcast against the batch shape
    makes both the log-probability and the probability raise, with the same
    exception: a ValueError when the static shapes of event and logits are
    fully defined, an InvalidArgumentError when one of them is of unknown
    rank. *)
Theorem log_prob_incompatible_event (d : Bernoulli) (e : Tensor Scalar) :
  is_instance d -> well_formed e ->
  broadcast_shape (shape e) (shape (logits d)) = None ->
  exists err,
    _log_prob d e = Raise err /\
    _prob d e = Raise err /\
    (tensor_shape.is_fully_defined (get_shape e) = true ->
     tensor_shape.is_fully_defined (get_shape (logits d)) = true ->
     err = ValueError "Dimensions must be equal") /\
    (get_shape e = tensor_shape.unknown_shape \/
     get_shape (logits d) = tensor_shape.unknown_shape ->
     err = InvalidArgumentError "Incompatible shapes").
Proof.
  intros Hd He Hs.
  destruct (instance_invariant Hd) as (Hwl & _).
  pose proof (to_float_well_formed He) as Hwe.
  exists (shape_error (get_shape e) (get_shape (logits d))).
  assert (Hlp : _log_prob d e =
                Raise (shape_error (get_shape e) (get_shape (logits d)))).
  { unfold _log_prob. rewrite must_broadcast_test.
    change (get_shape (math_ops.to_float e)) with (get_shape e).
    destruct (differ_or_undefined (get_shape e) (get_shape (logits d)))
      eqn:Hb; cbn [bind].
    - unfold math_ops.mul at 1, map2_tensor. simpl shape. now rewrite Hs.
    - pose proof (statically_same_shape Hwe Hwl Hb) as Hsame.
      simpl shape in Hsame.
      rewrite Hsame, broadcast_shape_same in Hs. discriminate. }
  split; [exact Hlp|]. split; [unfold _prob; now rewrite Hlp|]. split.
  - intros Hfe Hfl. now apply fully_defined_conflict.
  - unfold shape_error, tensor_shape.is_conflicting.
    intros [-> | ->]; [reflexivity|].
    now destruct (get_shape e).
Qed.

(** X6: for an event of the batch shape the log-probability is the negated
    cross-entropy of logit and event entry by entry, whether or not the
    static shapes let the code skip the broadcast. *)
Theorem log_prob_of_batch_shaped_event (d : Bernoulli) (e : Tensor Scalar) :
  is_instance d -> well_formed e ->
  shape e = shape (logits d) ->
  exists lp,
    _log_prob d e = Ok lp /\
    shape lp = shape (logits d) /\
    values lp =
      zip_with (fun x y => - nn.logistic_loss_ x (math_ops.to_float_ y))
               (values (logits d)) (values e).
Proof.
  intros Hd He Hs.
  destruct (instance_invariant Hd) as ((Hl & _) & _).
  pose proof (to_float_well_formed He) as [Hle _].
  assert (Hb : broadcast_shape (shape e) (shape (logits d)) =
               Some (shape (logits d)))
    by (rewrite Hs; apply broadcast_shape_same).
  destruct (log_prob_returns Hd He Hb)
    as (lg' & ev' & loss & _ & _ & Hvl & _ & Hve & _ & Hvloss & Hsloss
        & Hlp).
  exists (math_ops.neg loss). split; [exact Hlp|].
  split; [exact Hsloss|].
  simpl. rewrite Hvloss, Hvl, Hve.
  rewrite (broadcast_to_same (logits d) Hl).
  replace (broadcast_to (shape (logits d)) (math_ops.to_float e))
    with (values (math_ops.to_float e)).
  - simpl. now rewrite map_zip_with, zip_with_map_r.
  - symmetry. rewrite <- Hs.
    apply (broadcast_to_same (math_ops.to_float e)). exact Hle.
Qed.

Lemma log_pmf_sigmoid_neg (x y : R) :
  y = 0 \/ y = 1 -> log_pmf (math_ops.sigmoid_ x) y < 0.
Proof.
  unfold log_pmf.
  pose proof (sigmoid_pos x). pose proof (sigmoid_lt_1 x).
  assert (ln (math_ops.sigmoid_ x) < 0) by (apply ln_neg_below_1; lra).
  assert (ln (1 - math_ops.sigmoid_ x) < 0) by (apply ln_neg_below_1; lra).
  intros [-> | ->]; lra.
Qed.

Lemma exp_log_pmf (a y : R) :
  0 < a < 1 -> y = 0 \/ y = 1 ->
  exp (log_pmf a y) = y * a + (1 - y) * (1 - a).
Proof.
  intros [H0 H1] [-> | ->]; unfold log_pmf.
  - replace (0 * ln a + (1 - 0) * ln (1 - a)) with (ln (1 - a)) by ring.
    rewrite exp_ln by lra. ring.
  - replace (1 * ln a + (1 - 1) * ln (1 - a)) with (ln a) by ring.
    rewrite exp_ln by lra. ring.
Qed.

(** The log-probability of events in {0,1}, in terms of the logits. *)
Lemma log_prob_of_binary_event
  (d : Bernoulli) (e : Tensor Scalar) (s : list nat) :
  is_instance d -> well_formed e -> Forall is_binary (values e) ->
  broadcast_shape (shape e) (shape (logits d)) = Some s ->
  exists lp,
    _log_prob d e = Ok lp /\ shape lp = s /\
    values lp =
      zip_with (fun x y => log_pmf (math_ops.sigmoid_ x) y)
               (broadcast_to s (logits d))
               (broadcast_to s (math_ops.to_float e)) /\
    length (broadcast_to s (logits d)) = num_elements s /\
    length (broadcast_to s (math_ops.to_float e)) = num_elements s /\
    Forall (fun y => y = 0 \/ y = 1) (broadcast_to s (math_ops.to_float e)).
Proof.
  intros Hd He Hbin Hs.
  destruct (instance_invariant Hd) as ((Hl & _) & _).
  pose proof (to_float_well_formed He) as [Hle _].
  destruct (log_prob_returns Hd He Hs)
    as (lg' & ev' & loss & _ & _ & Hvl & _ & Hve & _ & Hvloss & Hsloss
        & Hlp).
  assert (Hall : Forall (fun y => y = 0 \/ y = 1)
                   (broadcast_to s (math_ops.to_float e))).
  { apply Forall_broadcast_values. simpl. apply Forall_map. exact Hbin. }
  exists (math_ops.neg loss). split; [exact Hlp|]. split; [exact Hsloss|].
  split; [|split; [|split; [|exact Hall]]].
  - simpl. rewrite Hvloss, Hvl, Hve, map_zip_with.
    apply zip_with_ext. intros x y _ Hy.
    apply neg_logistic_loss_log_pmf.
    rewrite Forall_forall in Hall. now apply Hall.
  - apply (broadcast_to_length_r (logits d) _ Hs Hl).
  - apply (broadcast_to_length (math_ops.to_float e) _ Hs Hle).
Qed.

(** X7: for finite logits and events in {0,1} no log-probability is
    positive and every probability lies between 0 and 1. *)
Theorem log_prob_negative_prob_proper
  (d : Bernoulli) (e : Tensor Scalar) (s : list nat) :
  is_instance d -> finite_logits d ->
  well_formed e -> Forall is_binary (values e) ->
  broadcast_shape (shape e) (shape (logits d)) = Some s ->
  exists lp pr,
    _log_prob d e = Ok lp /\ _prob d e = Ok pr /\
    shape pr = s /\
    length (values pr) = num_elements s /\
    Forall (fun v => v <= 0) (values lp) /\
    Forall (fun v => 0 <= v <= 1) (values pr).
Proof.
  intros Hd _ He Hbin Hs.
  destruct (log_prob_of_binary_event Hd He Hbin Hs)
    as (lp & Hlp & Hsh & Hv & Hll & Hle & Hall).
  assert (Hneg : Forall (fun v => v < 0) (values lp)).
  { rewrite Hv. apply Forall_zip_with. intros x y _ Hy.
    apply log_pmf_sigmoid_neg. rewrite Forall_forall in Hall.
    now apply Hall. }
  exists lp, (math_ops.exp lp). split; [exact Hlp|].
  split; [unfold _prob; now rewrite Hlp|]. split; [exact Hsh|].
  split.
  - simpl. rewrite length_map, Hv, zip_with_length; congruence.
  - split.
    + eapply Forall_impl; [|exact Hneg]. intros v Hv0. lra.
    + simpl. apply Forall_map.
      eapply Forall_impl; [|exact Hneg]. intros v Hv0. split.
      * left. apply exp_pos.
      * left. rewrite <- exp_0. now apply exp_increasing.
Qed.

Lemma zip_with_ext_both {A B C : Type} (f g : A -> B -> C)
  (P : A -> Prop) (Q : B -> Prop) (l : list A) :
  forall l' : list B,
  Forall P l -> Forall Q l' ->
  (forall a b, P a -> Q b -> f a b = g a b) ->
  zip_with f l l' = zip_with g l l'.
Proof.
  induction l as [|a l IH]; intros [|b l'] Hl Hl' H; simpl; auto.
  inversion Hl; inversion Hl'; subst.
  rewrite H, IH; auto.
Qed.

(** X8: for finite logits and events in {0,1} the probability is [p]
    where the event is 1 and [q = 1 - p] where it is 0. *)
Theorem prob_of_outcomes
  (d : Bernoulli) (e : Tensor Scalar) (s : list nat) :
  is_instance d -> finite_logits d ->
  well_formed e -> Forall is_binary (values e) ->
  broadcast_shape (shape e) (shape (logits d)) = Some s ->
  exists pr,
    _prob d e = Ok pr /\ shape pr = s /\
    values pr =
      zip_with (fun a y => y * a + (1 - y) * (1 - a))
               (broadcast_to s (p d))
               (broadcast_to s (math_ops.to_float e)).
Proof.
  intros Hd Hfin He Hbin Hs.
  destruct (log_prob_of_binary_event Hd He Hbin Hs)
    as (lp & Hlp & Hsh & Hv & Hll & Hle & Hall).
  destruct (instance_invariant Hd) as (_ & _ & Hsp & _).
  exists (math_ops.exp lp). split; [unfold _prob; now rewrite Hlp|].
  split; [exact Hsh|]. simpl. rewrite Hv, map_zip_with.
  rewrite (broadcast_to_values math_ops.sigmoid_ s (p d) (logits d) Hsp
             (p_is_sigmoid_of_logits Hd Hfin)).
  rewrite zip_with_map_l.
  apply zip_with_ext_both
    with (P := fun _ => True) (Q := fun y => y = 0 \/ y = 1); auto.
  - apply Forall_forall. auto.
  - intros x y _ Hy. apply exp_log_pmf; auto.
    split; [apply sigmoid_pos | apply sigmoid_lt_1].
Qed.

(** ** Events of rank 0 *)

Lemma tile_repeat {A : Type} (c : A) (n k : nat) :
  tile n (repeat c k) = repeat c (n * k).
Proof.
  induction n as [|n IH]; simpl; auto. now rewrite IH, repeat_app.
Qed.

Lemma num_elements_ones (n : nat) : num_elements (repeat 1%nat n) = 1%nat.
Proof. induction n as [|n IH]; simpl; auto. rewrite IH. lia. Qed.

Lemma broadcast_dims_ones (s : list nat) :
  broadcast_dims (repeat 1%nat (length s)) s = Some s.
Proof.
  induction s as [|n s IH]; simpl; auto. rewrite IH.
  unfold broadcast_dim. destruct n as [|[|n]]; reflexivity.
Qed.

Lemma broadcast_shape_scalar (s : list nat) : broadcast_shape [] s = Some s.
Proof.
  unfold broadcast_shape. simpl length. rewrite Nat.max_0_l, pad_full.
  unfold pad. simpl length. rewrite Nat.sub_0_r, app_nil_r.
  apply broadcast_dims_ones.
Qed.

Lemma broadcast_values_scalar {A : Type} (c : A) (s : list nat) :
  broadcast_values s (repeat 1%nat (length s)) [c] =
  repeat c (num_elements s).
Proof.
  induction s as [|n s IH]; simpl; auto.
  rewrite num_elements_ones. simpl. rewrite app_nil_r, IH.
  destruct n as [|[|n]]; simpl Nat.eqb; cbv iota.
  - reflexivity.
  - f_equal. simpl. lia.
  - rewrite tile_repeat. reflexivity.
Qed.

Lemma broadcast_to_scalar {A : Type} (t : Tensor A) (c : A) (s : list nat) :
  shape t = [] -> values t = [c] ->
  broadcast_to s t = repeat c (num_elements s).
Proof.
  intros Hs Hv. unfold broadcast_to, pad. rewrite Hs, Hv. simpl length.
  rewrite Nat.sub_0_r, app_nil_r. apply broadcast_values_scalar.
Qed.

Lemma zip_with_repeat_r {A B C : Type} (f : A -> B -> C) (c : B)
  (l : list A) :
  zip_with f l (repeat c (length l)) = map (fun x => f x c) l.
Proof. induction l as [|a l IH]; simpl; auto. now rewrite IH. Qed.

Lemma scalar_event_well_formed (y : Scalar) : well_formed (scalar_event y).
Proof. split; reflexivity. Qed.

(** The probability of one outcome, stretched over the batch. *)
Lemma prob_of_scalar_event (d : Bernoulli) (y : Scalar) :
  is_instance d -> is_binary y ->
  exists pr,
    _prob d (scalar_event y) = Ok pr /\
    shape pr = _batch_shape d /\
    values pr =
      map (fun x => math_ops.to_float_ y * math_ops.sigmoid_ x +
                    (1 - math_ops.to_float_ y) * (1 - math_ops.sigmoid_ x))
          (values (logits d)).
Proof.
  intros Hd Hy.
  destruct (instance_invariant Hd) as ((Hl & _) & _).
  assert (Hbin : Forall is_binary (values (scalar_event y)))
    by (simpl; constructor; [exact Hy | constructor]).
  destruct (log_prob_of_binary_event Hd (scalar_event_well_formed y) Hbin
              (broadcast_shape_scalar (shape (logits d))))
    as (lp & Hlp & Hsh & Hv & _ & _ & _).
  exists (math_ops.exp lp). split; [unfold _prob; now rewrite Hlp|].
  split; [exact Hsh|]. simpl. rewrite Hv.
  rewrite (broadcast_to_same (logits d) Hl).
  rewrite (@broadcast_to_scalar _ (math_ops.to_float (scalar_event y))
             (math_ops.to_float_ y) (shape (logits d)) eq_refl eq_refl).
  rewrite <- Hl, zip_with_repeat_r, map_map.
  apply map_ext. intros x. apply exp_log_pmf; [|exact Hy].
  split; [apply sigmoid_pos | apply sigmoid_lt_1].
Qed.

(** X9: for finite logits the probabilities of the two outcomes, asked
    with events of rank 0, are [p] and [q] in every batch entry, and sum
    to 1. *)
Theorem prob_of_both_outcomes_sums_to_one (d : Bernoulli) :
  is_instance d -> finite_logits d ->
  exists p1 p0,
    _prob d (scalar_event (SInt 1)) = Ok p1 /\
    _prob d (scalar_event (SInt 0)) = Ok p0 /\
    shape p1 = _batch_shape d /\ shape p0 = _batch_shape d /\
    values p1 = values (p d) /\
    values p0 = values (q d) /\
    zip_with Rplus (values p1) (values p0) =
      map (fun _ => 1) (values (p d)).
Proof.
  intros Hd Hfin.
  destruct (@prob_of_scalar_event d (SInt 1) Hd (or_intror eq_refl))
    as (p1 & Hp1 & Hs1 & Hv1).
  destruct (@prob_of_scalar_event d (SInt 0) Hd (or_introl eq_refl))
    as (p0 & Hp0 & Hs0 & Hv0).
  destruct (instance_invariant Hd) as (_ & _ & _ & Hq).
  pose proof (p_is_sigmoid_of_logits Hd Hfin) as Hp.
  assert (E1 : values p1 = values (p d)).
  { rewrite Hv1, Hp. apply map_ext. intros x. simpl. ring. }
  assert (E0 : values p0 = values (q d)).
  { rewrite Hv0, Hq. simpl. rewrite Hp, map_map.
    apply map_ext. intros x. simpl. ring. }
  exists p1, p0. do 6 (split; [assumption|]).
  rewrite E1, E0, Hq. simpl. rewrite zip_with_map_r, zip_with_diag.
  apply map_ext. intros x. ring.
Qed.

(** ** KL divergence between two instances *)

Lemma kl_closed_form_reference (x y : R) :
  kl_closed_form x y =
  reference_kl (math_ops.sigmoid_ x) (math_ops.sigmoid_ y).
Proof.
  unfold kl_closed_form, reference_kl, nn.softplus_.
  pose proof (sigmoid_pos x). pose proof (sigmoid_pos y).
  pose proof (sigmoid_lt_1 x). pose proof (sigmoid_lt_1 y).
  unfold Rdiv at 1 2. rewrite !ln_mult, !ln_Rinv;
    try apply Rinv_0_lt_compat; try lra.
  rewrite !ln_sigmoid, !ln_sigmoid_complement.
  rewrite <- sigmoid_complement. ring.
Qed.

Lemma kl_entries (va : list R) :
  forall vb : list R,
  zip_with Rplus
    (zip_with Rmult (map math_ops.sigmoid_ va)
       (zip_with Rplus
          (map Ropp (map nn.softplus_ (map Ropp va)))
          (map nn.softplus_ (map Ropp vb))))
    (zip_with Rmult (map math_ops.sigmoid_ (map Ropp va))
       (zip_with Rplus
          (map Ropp (map nn.softplus_ va))
          (map nn.softplus_ vb))) =
  zip_with kl_closed_form va vb.
Proof.
  induction va as [|x va IH]; intros [|y vb]; simpl; auto.
  now rewrite IH.
Qed.

(** The divergence of two instances of one batch shape, entry by entry. *)
Lemma zip_with_length_min {A B C : Type} (f : A -> B -> C) (l : list A) :
  forall l' : list B,
  length (zip_with f l l') = Nat.min (length l) (length l').
Proof.
  induction l as [|a l IH]; intros [|b l']; simpl; auto.
Qed.

Lemma kl_returns (a b : Bernoulli) :
  is_instance a -> is_instance b ->
  shape (logits b) = shape (logits a) ->
  exists kl,
    _kl_bernoulli_bernoulli a b = Ok kl /\
    shape kl = _batch_shape a /\
    length (values kl) = num_elements (_batch_shape a) /\
    values kl = zip_with kl_closed_form (values (logits a))
                                        (values (logits b)).
Proof.
  intros Ha Hb Hs.
  destruct (instance_invariant Ha) as ((Hla & _) & _).
  destruct (instance_invariant Hb) as ((Hlb & _) & _).
  rewrite Hs in Hlb.
  unfold _kl_bernoulli_bernoulli, math_ops.add, math_ops.mul.
  do 4 (rewrite map2_tensor_same_shape;
        [cbn [bind] | simpl; auto
         | simpl; repeat rewrite ?zip_with_length_min, ?length_map; lia ..]).
  rewrite map2_tensor_same_shape;
    [ | simpl; auto
      | simpl; repeat rewrite ?zip_with_length_min, ?length_map; lia ..].
  eexists. split; [reflexivity|]. simpl. split; [reflexivity|].
  rewrite kl_entries. split; [|reflexivity].
  rewrite zip_with_length_min. unfold _batch_shape, array_ops.shape_.
  unfold logits in *. lia.
Qed.

(** X10: between two instances of one batch shape, both with finite
    logits, the registered function returns the Kullback-Leibler divergence
    of the two Bernoulli distributions,
    [pa * log (pa / pb) + (1 - pa) * log ((1 - pa) / (1 - pb))]. *)
Theorem kl_is_reference (a b : Bernoulli) :
  is_instance a -> is_instance b ->
  finite_logits a -> finite_logits b ->
  shape (logits b) = shape (logits a) ->
  exists kl,
    _kl_bernoulli_bernoulli a b = Ok kl /\
    shape kl = _batch_shape a /\
    length (values kl) = num_elements (_batch_shape a) /\
    values kl = zip_with reference_kl (values (p a)) (values (p b)).
Proof.
  intros Ha Hb Hfa Hfb Hs.
  destruct (kl_returns Ha Hb Hs) as (kl & Hkl & Hsh & Hlen & Hv).
  exists kl. do 3 (split; [assumption|]).
  rewrite (p_is_sigmoid_of_logits Ha Hfa), (p_is_sigmoid_of_logits Hb Hfb).
  rewrite zip_with_map, Hv. apply zip_with_ext. intros x y _ _.
  apply kl_closed_form_reference.
Qed.

(** ** Mode and the sign of the logits *)

Lemma sigmoid_above_complement (x : R) :
  Rgtb (math_ops.sigmoid_ x) (1 - math_ops.sigmoid_ x) = Rgtb x 0.
Proof.
  assert (Hs : math_ops.sigmoid_ x * (1 + exp (- x)) = 1).
  { unfold math_ops.sigmoid_. field.
    pose proof (exp_pos (- x)). lra. }
  pose proof (sigmoid_pos x) as Hp. pose proof (exp_pos (- x)) as He.
  destruct (Rlt_dec 0 x) as [Hx|Hx].
  - assert (Hlt : exp (- x) < 1)
      by (rewrite <- exp_0; apply exp_increasing; lra).
    unfold Rgtb. rewrite (Rltb_true Hx). apply Rltb_true. nra.
  - assert (Hge : 1 <= exp (- x)).
    { destruct (Req_dec x 0) as [-> | Hne].
      - rewrite Ropp_0, exp_0. lra.
      - left. rewrite <- exp_0. apply exp_increasing. lra. }
    unfold Rgtb. rewrite (Rltb_false Hx). apply Rltb_false. nra.
Qed.

Lemma mode_returns (d : Bernoulli) :
  is_instance d ->
  exists m,
    _mode d = Ok m /\ shape m = shape (p d) /\
    values m =
      map (fun x => math_ops.cast_ (dtype d) (Rgtb x (1 - x)))
          (values (p d)).
Proof.
  intros Hd.
  destruct (instance_invariant Hd) as ((Hl & _) & Hp & Hs & Hq).
  unfold _mode, math_ops.greater.
  rewrite (map2_tensor_same_shape Rgtb (p d) (q d)).
  - cbn [bind]. eexists. split; [reflexivity|]. simpl.
    split; [reflexivity|].
    rewrite Hq. simpl. now rewrite zip_with_map_r, zip_with_diag, map_map.
  - now rewrite Hq.
  - now rewrite Hs.
  - rewrite Hq. simpl. now rewrite length_map, Hs.
Qed.

(** X12: for an instance built from logits the mode is 0 wherever the
    logit is zero or negative: a mode of 1 stands only at a positive
    logit. *)
Theorem mode_is_zero_at_nonpositive_logits (t : Tensor R) dt va ans :
  well_formed t ->
  exists d m,
    Bernoulli_init (Some t) None dt va ans = Ok d /\
    _mode d = Ok m /\
    shape m = shape t /\
    Forall2 (fun x e =>
               (x <= 0 -> e = math_ops.cast_ dt false) /\
               (e = math_ops.cast_ dt true -> 0 < x))
            (values t) (values m).
Proof.
  intros Ht.
  assert (Hd : is_instance
                 (mkBernoulli t (math_ops.sigmoid t)
                    (math_ops.scalar_sub 1 (math_ops.sigmoid t)) dt va ans)).
  { exists (Some t), None, dt, va, ans. split; [reflexivity|].
    split; intros t0 H; inversion H; subst; exact Ht. }
  destruct (mode_returns Hd) as (m & Hm & Hs & Hv).
  do 2 eexists. split; [reflexivity|]. split; [exact Hm|].
  split; [exact Hs|].
  rewrite Hv. simpl. rewrite map_map.
  apply Forall2_map_self. intros x _.
  rewrite sigmoid_above_complement, cast_true_iff. split.
  - intros Hx. apply cast_false_iff. apply Rltb_false. lra.
  - intros H. now apply Rgtb_iff in H.
Qed.

(** ** The sigmoid-parameterized variant *)

Lemma sigmoid_well_formed (x : Tensor R) :
  well_formed x -> well_formed (math_ops.sigmoid x).
Proof.
  intros [H1 H2]. split; simpl; auto. now rewrite length_map.
Qed.

(** X13: whatever the raw parameter, [BernoulliWithSigmoidP] constructs
    an instance whose probabilities, and so its mean, lie in [0,1], and
    whose variance lies between 0 and 1/4. *)
Theorem sigmoid_p_is_in_unit_interval (x : Tensor R) dt va ans :
  well_formed x ->
  exists d v,
    BernoulliWithSigmoidP_init x dt va ans = Ok d /\
    is_instance d /\
    shape (p d) = shape x /\
    Forall in_unit_interval (values (p d)) /\
    Forall in_unit_interval (values (_mean d)) /\
    _variance d = Ok v /\
    Forall (fun y => 0 <= y <= 1 / 4) (values v).
Proof.
  intros Hx. pose proof (sigmoid_well_formed Hx) as Hsx.
  unfold BernoulliWithSigmoidP_init, Bernoulli_init,
    distribution_util.get_logits_and_prob, nn.sigmoid.
  rewrite truediv_complement by apply Hsx. cbn [bind fst snd].
  match goal with |- exists d v, Ok ?i = Ok d /\ _ => set (inst := i) end.
  assert (Hi : is_instance inst).
  { exists None, (Some (math_ops.sigmoid x)), dt, va, ans.
    split; [|split; intros t' H; inversion H; subst; exact Hsx].
    unfold Bernoulli_init, distribution_util.get_logits_and_prob.
    rewrite truediv_complement by apply Hsx. reflexivity. }
  assert (Hin : Forall in_unit_interval
                  (map math_ops.sigmoid_ (values x))).
  { apply Forall_map, Forall_forall. intros y _.
    apply sigmoid_in_unit_interval. }
  destruct (variance_returns Hi) as (v & Hv & _ & Hval).
  exists inst, v. split; [reflexivity|]. split; [exact Hi|].
  split; [reflexivity|]. split; [exact Hin|]. split; [exact Hin|].
  split; [exact Hv|]. rewrite Hval. apply Forall_map.
  eapply Forall_impl; [|exact Hin]. apply variance_entry_bounds.
Qed.

(** ** Sampling: no samples, and more probable outcomes *)

Lemma Forall2_tile {A B : Type} (P : A -> B -> Prop) (n : nat)
  (l : list A) (l' : list B) :
  Forall2 P l l' -> Forall2 P (tile n l) (tile n l').
Proof.
  intros H. induction n as [|n IH]; simpl; [constructor|].
  now apply Forall2_app.
Qed.

Lemma Forall2_zip_with_shared {A B C : Type} (f g : A -> B -> C)
  (P : B -> B -> Prop) (Q : C -> C -> Prop) (l l' : list B) :
  Forall2 P l l' ->
  (forall a b b', P b b' -> Q (f a b) (g a b')) ->
  forall u : list A, Forall2 Q (zip_with f u l) (zip_with g u l').
Proof.
  intros H HQ. induction H as [|b b' l l' Hb _ IH]; intros [|a u]; simpl;
    constructor; auto.
Qed.

Section MoreSamplingProperties.

Variable random_uniform : list nat -> option Z -> Tensor R.
Hypothesis generator : is_uniform_generator random_uniform.

(** X14: asked for no samples, sampling returns the empty tensor of shape
    [[0] + batch_shape]. *)
Theorem sample_n_of_zero (d : Bernoulli) (seed : option Z) :
  is_instance d ->
  exists t,
    _sample_n random_uniform d 0 seed = Ok t /\
    shape t = 0%nat :: _batch_shape d /\
    values t = [].
Proof.
  intros Hd.
  destruct (sample_n_returns generator 0 seed Hd)
    as (t & Ht & Hs & _ & Hlen).
  exists t. split; [exact Ht|]. split; [exact Hs|].
  apply length_zero_iff_nil. exact Hlen.
Qed.

(** X15: with the same noise, raising the probabilities never turns a
    sampled 1 into a 0: where an instance samples 1, an instance of the same
    batch shape with probabilities at least as large samples 1 too. *)
Theorem sample_n_monotone (d d' : Bernoulli) (n : nat) (seed : option Z) :
  is_instance d -> is_instance d' ->
  shape (p d') = shape (p d) -> dtype d' = dtype d ->
  Forall2 Rle (values (p d)) (values (p d')) ->
  exists t t',
    _sample_n random_uniform d n seed = Ok t /\
    _sample_n random_uniform d' n seed = Ok t' /\
    shape t' = shape t /\
    Forall2 (fun e e' => e = math_ops.cast_ (dtype d) true ->
                         e' = math_ops.cast_ (dtype d) true)
            (values t) (values t').
Proof.
  intros Hd Hd' Hsh Hdt Hle.
  destruct (instance_invariant Hd) as (_ & _ & Hsp & _).
  destruct (instance_invariant Hd') as (_ & _ & Hsp' & _).
  assert (Hb : _batch_shape d' = _batch_shape d).
  { unfold _batch_shape, array_ops.shape_, logits in *. congruence. }
  destruct (sample_n_returns generator n seed Hd)
    as (t & Ht & Hs & Hv & _).
  destruct (sample_n_returns generator n seed Hd')
    as (t' & Ht' & Hs' & Hv' & _).
  exists t, t'. split; [exact Ht|]. split; [exact Ht'|].
  split; [congruence|].
  rewrite Hv, Hv', Hb, Hdt.
  apply Forall2_zip_with_shared with (P := Rle);
    [now apply Forall2_tile|].
  intros u a a' Haa H. apply cast_true_iff in H.
  apply cast_true_iff. unfold Rltb in *.
  destruct (Rlt_dec u a); [|discriminate].
  destruct (Rlt_dec u a'); [reflexivity|]. lra.
Qed.

End MoreSamplingProperties.

(** ** The shapes of the parameters *)

(** X16: [_param_shapes] maps the key "logits" to the sample shape and has
    no other key; an instance built from logits of the shape it gives has
    that batch shape, and its samples have shape [[n] + sample_shape]. *)
Theorem param_shapes_give_batch_shape (sample_shape : list nat) :
  dict_get "logits" (_param_shapes sample_shape) = Some sample_shape /\
  (forall key, key <> "logits"%string ->
               dict_get key (_param_shapes sample_shape) = None) /\
  forall (t : Tensor R) dt va ans,
    well_formed t ->
    dict_get "logits" (_param_shapes sample_shape) = Some (shape t) ->
    exists d,
      Bernoulli_init (Some t) None dt va ans = Ok d /\
      _batch_shape d = sample_shape /\
      forall random_uniform n seed,
        is_uniform_generator random_uniform ->
        exists smp,
          _sample_n random_uniform d n seed = Ok smp /\
          shape smp = n :: sample_shape.
Proof.
  split; [reflexivity|]. split.
  - intros key Hkey. cbv [_param_shapes dict_get].
    destruct (String.eqb_spec "logits" key) as [E|_]; [|reflexivity].
    now elim Hkey.
  - intros t dt va ans Ht Hk.
    simpl in Hk. inversion Hk as [Hshape].
    eexists. split; [reflexivity|].
    split; [reflexivity|].
    intros gen n seed Hgen.
    match goal with
    | |- exists smp, _sample_n _ ?i _ _ = _ /\ _ => set (inst := i)
    end.
    assert (Hi : is_instance inst).
    { exists (Some t), None, dt, va, ans. split; [reflexivity|].
      split; intros t' H; inversion H; subst; exact Ht. }
    destruct (sample_n_returns Hgen n seed Hi) as (smp & Hsmp & Hs & _).
    exists smp. split; [exact Hsmp|]. exact Hs.
Qed.

(** ** Entropy and log-probability *)

Lemma log_prob_of_scalar_event (d : Bernoulli) (y : Scalar) :
  is_instance d -> is_binary y ->
  exists lp,
    _log_prob d (scalar_event y) = Ok lp /\
    shape lp = _batch_shape d /\
    values lp =
      map (fun x => log_pmf (math_ops.sigmoid_ x) (math_ops.to_float_ y))
          (values (logits d)).
Proof.
  intros Hd Hy.
  destruct (instance_invariant Hd) as ((Hl & _) & _).
  assert (Hbin : Forall is_binary (values (scalar_event y)))
    by (simpl; constructor; [exact Hy | constructor]).
  destruct (log_prob_of_binary_event Hd (scalar_event_well_formed y) Hbin
              (broadcast_shape_scalar (shape (logits d))))
    as (lp & Hlp & Hsh & Hv & _ & _ & _).
  exists lp. split; [exact Hlp|]. split; [exact Hsh|]. rewrite Hv.
  rewrite (broadcast_to_same (logits d) Hl).
  rewrite (@broadcast_to_scalar _ (math_ops.to_float (scalar_event y))
             (math_ops.to_float_ y) (shape (logits d)) eq_refl eq_refl).
  now rewrite <- Hl, zip_with_repeat_r.
Qed.

(** X17: for finite logits within the range of [exp] the entropy is the
    expected negative log-probability: [p * log_prob(1) + q * log_prob(0)]
    is the negated entropy in every batch entry. *)
Theorem entropy_is_expected_log_prob (d : Bernoulli) :
  is_instance d -> finite_logits d -> exp_in_range (logits d) ->
  exists h l1 l0,
    _entropy d = Ok h /\
    _log_prob d (scalar_event (SInt 1)) = Ok l1 /\
    _log_prob d (scalar_event (SInt 0)) = Ok l0 /\
    zip_with Rplus (zip_with Rmult (values (p d)) (values l1))
                   (zip_with Rmult (values (q d)) (values l0)) =
      map Ropp (values h).
Proof.
  intros Hd Hfin _.
  destruct (entropy_returns Hd) as (h & Hh & _ & Hvh).
  destruct (@log_prob_of_scalar_event d (SInt 1) Hd (or_intror eq_refl))
    as (l1 & Hl1 & _ & Hv1).
  destruct (@log_prob_of_scalar_event d (SInt 0) Hd (or_introl eq_refl))
    as (l0 & Hl0 & _ & Hv0).
  destruct (instance_invariant Hd) as (_ & _ & _ & Hq).
  exists h, l1, l0. do 3 (split; [assumption|]).
  rewrite Hq. simpl values.
  rewrite (p_is_sigmoid_of_logits Hd Hfin), Hv1, Hv0, Hvh.
  rewrite !map_map, !zip_with_map, !zip_with_diag.
  rewrite zip_with_map, zip_with_diag.
  apply map_ext. intros x. rewrite entropy_closed_form_reference.
  unfold log_pmf, reference_entropy. simpl. ring.
Qed.

(** ** KL divergence, cross-entropy and entropy *)

Lemma zip_with_zip_map {A B C D E : Type} (h : C -> D -> E)
  (k : A -> B -> C) (g : A -> D) (l : list A) :
  forall l' : list B,
  zip_with h (zip_with k l l') (map g l) =
  zip_with (fun x y => h (k x y) (g x)) l l'.
Proof.
  induction l as [|a l IH]; intros [|b l']; simpl; auto.
  now rewrite IH.
Qed.

Lemma zip_with_zip_zip {A B C D E : Type} (h : C -> D -> E)
  (k : A -> B -> C) (k' : A -> B -> D) (l : list A) :
  forall l' : list B,
  zip_with h (zip_with k l l') (zip_with k' l l') =
  zip_with (fun x y => h (k x y) (k' x y)) l l'.
Proof.
  induction l as [|a l IH]; intros [|b l']; simpl; auto.
  now rewrite IH.
Qed.

Lemma reference_kl_plus_entropy (a b : R) :
  0 < a < 1 -> 0 < b < 1 ->
  reference_kl a b + reference_entropy a (1 - a) =
  - (a * log_pmf b 1 + (1 - a) * log_pmf b 0).
Proof.
  intros [Ha0 Ha1] [Hb0 Hb1].
  unfold reference_kl, reference_entropy, log_pmf, Rdiv.
  assert (E1 : ln (a * / b) = ln a - ln b).
  { rewrite ln_mult; [|lra|apply Rinv_0_lt_compat; lra].
    rewrite ln_Rinv by lra. ring. }
  assert (E2 : ln ((1 - a) * / (1 - b)) = ln (1 - a) - ln (1 - b)).
  { rewrite ln_mult; [|lra|apply Rinv_0_lt_compat; lra].
    rewrite ln_Rinv by lra. ring. }
  rewrite E1, E2. ring.
Qed.

(** X18: between instances of one batch shape with finite logits, those
    of the first within the range of [exp], the divergence plus the entropy
    of the first is the cross-entropy: the negated expectation, under the
    first, of the log-probability under the second. *)
Theorem kl_plus_entropy_is_cross_entropy (a b : Bernoulli) :
  is_instance a -> is_instance b ->
  finite_logits a -> finite_logits b -> exp_in_range (logits a) ->
  shape (logits b) = shape (logits a) ->
  exists kl h l1 l0,
    _kl_bernoulli_bernoulli a b = Ok kl /\
    _entropy a = Ok h /\
    _log_prob b (scalar_event (SInt 1)) = Ok l1 /\
    _log_prob b (scalar_event (SInt 0)) = Ok l0 /\
    zip_with Rplus (values kl) (values h) =
      map Ropp
        (zip_with Rplus (zip_with Rmult (values (p a)) (values l1))
                        (zip_with Rmult (values (q a)) (values l0))).
Proof.
  intros Ha Hb Hfin _ _ Hs.
  destruct (kl_returns Ha Hb Hs) as (kl & Hkl & _ & _ & Hvk).
  destruct (entropy_returns Ha) as (h & Hh & _ & Hvh).
  destruct (@log_prob_of_scalar_event b (SInt 1) Hb (or_intror eq_refl))
    as (l1 & Hl1 & _ & Hv1).
  destruct (@log_prob_of_scalar_event b (SInt 0) Hb (or_introl eq_refl))
    as (l0 & Hl0 & _ & Hv0).
  destruct (instance_invariant Ha) as (_ & _ & _ & Hq).
  exists kl, h, l1, l0. do 4 (split; [assumption|]).
  rewrite Hq. simpl values.
  rewrite (p_is_sigmoid_of_logits Ha Hfin), Hvk, Hvh, Hv1, Hv0.
  rewrite zip_with_zip_map, !map_map, !zip_with_map, zip_with_zip_zip.
  rewrite map_zip_with.
  apply zip_with_ext. intros x y _ _.
  rewrite kl_closed_form_reference, entropy_closed_form_reference.
  simpl.
  apply reference_kl_plus_entropy; split;
    try apply sigmoid_pos; apply sigmoid_lt_1.
Qed.

(** ** The further properties at the sample instances *)

Lemma from_other_logits_is_instance : is_instance from_other_logits.
Proof. apply with_logits_is_instance, vector_well_formed. Qed.

Lemma from_larger_probs_is_instance : is_instance from_larger_probs.
Proof. apply with_p_is_instance, vector_well_formed. Qed.

Lemma from_probs_in_unit_interval :
  Forall in_unit_interval (values (p from_probs)).
Proof. simpl. repeat constructor; unfold in_unit_interval; lra. Qed.

Lemma batch_event_well_formed : well_formed batch_event.
Proof. split; reflexivity. Qed.

Lemma mismatched_event_well_formed : well_formed mismatched_event.
Proof. split; reflexivity. Qed.

Lemma variance_bounds_witness :
  exists v,
    _variance from_probs = Ok v /\
    Forall (fun x => 0 <= x <= 1 / 4) (values v).
Proof.
  destruct (variance_bounds from_probs_is_instance
              from_probs_in_unit_interval) as (v & Hv & _ & Hb).
  exists v. auto.
Defined.

Lemma std_is_root_of_variance_witness :
  exists v s,
    _variance from_probs = Ok v /\ _std from_probs = Ok s /\
    map (fun x => x * x) (values s) = values v.
Proof.
  destruct (std_is_root_of_variance from_probs_is_instance
              from_probs_in_unit_interval) as (v & s & Hv & Hs & _ & Hsq & _).
  exists v, s. auto.
Defined.

Lemma sample_logits_in_range :
  exp_in_range sample_logits /\ exp_in_range (math_ops.neg sample_logits).
Proof.
  unfold exp_in_range. simpl. split; repeat constructor; lra.
Qed.

Lemma entropy_of_negated_logits_witness :
  well_formed sample_logits /\
  exists d d' h h',
    Bernoulli_init (Some sample_logits) None
                   dtypes.int32 false true = Ok d /\
    Bernoulli_init (Some (math_ops.neg sample_logits)) None
                   dtypes.int32 false true = Ok d' /\
    _entropy d = Ok h /\ _entropy d' = Ok h' /\
    shape h' = shape h /\ values h' = values h.
Proof.
  split; [apply vector_well_formed|].
  exact (entropy_of_negated_logits dtypes.int32 dtypes.int32
           false false true true (vector_well_formed _)
           (proj1 sample_logits_in_range) (proj2 sample_logits_in_range)).
Defined.

Lemma log_prob_incompatible_event_witness :
  _log_prob from_logits mismatched_event =
    Raise (ValueError "Dimensions must be equal") /\
  _prob from_logits mismatched_event =
    Raise (ValueError "Dimensions must be equal").
Proof.
  destruct (@log_prob_incompatible_event from_logits mismatched_event
              from_logits_is_instance mismatched_event_well_formed eq_refl)
    as (err & Hlp & Hp & Hv & _).
  rewrite <- (Hv eq_refl eq_refl). split; assumption.
Defined.

Lemma log_prob_of_batch_shaped_event_witness :
  exists lp,
    _log_prob from_logits batch_event = Ok lp /\
    shape lp = [3]%nat /\
    values lp =
      [- nn.logistic_loss_ 0 1; - nn.logistic_loss_ 2 0;
       - nn.logistic_loss_ (-1) 1].
Proof.
  exact (@log_prob_of_batch_shaped_event from_logits batch_event
           from_logits_is_instance batch_event_well_formed eq_refl).
Defined.

Lemma log_prob_negative_prob_proper_witness :
  exists lp pr,
    _log_prob from_logits sample_event = Ok lp /\
    _prob from_logits sample_event = Ok pr /\
    length (values pr) = 6%nat /\
    Forall (fun v => v <= 0) (values lp) /\
    Forall (fun v => 0 <= v <= 1) (values pr).
Proof.
  destruct (@log_prob_negative_prob_proper from_logits sample_event
              [2; 3]%nat from_logits_is_instance from_logits_finite
              sample_event_well_formed sample_event_is_binary eq_refl)
    as (lp & pr & Hlp & Hpr & _ & Hlen & Hneg & Hin).
  exists lp, pr. auto.
Defined.

Lemma prob_of_outcomes_witness :
  exists pr,
    _prob from_logits sample_event = Ok pr /\ shape pr = [2; 3]%nat /\
    values pr =
      zip_with (fun a y => y * a + (1 - y) * (1 - a))
               (broadcast_to [2; 3]%nat (p from_logits))
               (broadcast_to [2; 3]%nat (math_ops.to_float sample_event)).
Proof.
  exact (@prob_of_outcomes from_logits sample_event [2; 3]%nat
           from_logits_is_instance from_logits_finite
           sample_event_well_formed sample_event_is_binary eq_refl).
Defined.

Lemma prob_of_both_outcomes_sums_to_one_witness :
  exists p1 p0,
    _prob from_logits (scalar_event (SInt 1)) = Ok p1 /\
    _prob from_logits (scalar_event (SInt 0)) = Ok p0 /\
    values p1 = values (p from_logits) /\
    zip_with Rplus (values p1) (values p0) = [1; 1; 1].
Proof.
  destruct (prob_of_both_outcomes_sums_to_one from_logits_is_instance
              from_logits_finite)
    as (p1 & p0 & H1 & H0 & _ & _ & Hv1 & _ & Hsum).
  exists p1, p0. auto.
Defined.

Lemma from_other_logits_finite : finite_logits from_other_logits.
Proof.
  unfold finite_logits. simpl.
  repeat constructor; try apply sigmoid_pos; apply sigmoid_lt_1.
Qed.

Lemma kl_is_reference_witness :
  exists kl,
    _kl_bernoulli_bernoulli from_logits from_other_logits = Ok kl /\
    length (values kl) = 3%nat /\
    values kl =
      zip_with reference_kl (values (p from_logits))
                            (values (p from_other_logits)).
Proof.
  destruct (@kl_is_reference from_logits from_other_logits
              from_logits_is_instance from_other_logits_is_instance
              from_logits_finite from_other_logits_finite eq_refl)
    as (kl & Hkl & _ & Hlen & Hv).
  exists kl. auto.
Defined.

Lemma mode_is_zero_at_nonpositive_logits_witness :
  exists d m,
    Bernoulli_init (Some sample_logits) None dtypes.int32 false true
      = Ok d /\
    _mode d = Ok m /\
    Forall2 (fun x e => (x <= 0 -> e = SInt 0) /\ (e = SInt 1 -> 0 < x))
            [0; 2; -1] (values m).
Proof.
  destruct (mode_is_zero_at_nonpositive_logits dtypes.int32 false true
              (vector_well_formed [0; 2; -1]))
    as (d & m & Hd & Hm & _ & Hv).
  exists d, m. auto.
Defined.

Lemma sigmoid_p_is_in_unit_interval_witness :
  exists d v,
    BernoulliWithSigmoidP_init sample_logits dtypes.int32 false true
      = Ok d /\
    Forall in_unit_interval (values (p d)) /\
    _variance d = Ok v /\
    Forall (fun y => 0 <= y <= 1 / 4) (values v).
Proof.
  destruct (sigmoid_p_is_in_unit_interval dtypes.int32 false true
              (vector_well_formed [0; 2; -1]))
    as (d & v & Hd & _ & _ & Hp & _ & Hv & Hb).
  exists d, v. auto.
Defined.

Lemma sample_n_of_zero_witness :
  exists t,
    _sample_n constant_uniform from_logits 0 None = Ok t /\
    shape t = [0; 3]%nat /\ values t = [].
Proof.
  exact (sample_n_of_zero constant_uniform_is_generator None
           from_logits_is_instance).
Defined.

Lemma sample_n_monotone_witness :
  exists t t',
    _sample_n constant_uniform from_probs 2 (Some 7%Z) = Ok t /\
    _sample_n constant_uniform from_larger_probs 2 (Some 7%Z) = Ok t' /\
    Forall2 (fun e e' => e = SInt 1 -> e' = SInt 1) (values t) (values t').
Proof.
  assert (Hle : Forall2 Rle (values (p from_probs))
                        (values (p from_larger_probs))).
  { simpl. repeat constructor; lra. }
  destruct (@sample_n_monotone constant_uniform
              constant_uniform_is_generator from_probs from_larger_probs
              2 (Some 7%Z) from_probs_is_instance
              from_larger_probs_is_instance eq_refl eq_refl Hle)
    as (t & t' & Ht & Ht' & _ & Hm).
  exists t, t'. auto.
Defined.

Lemma entropy_is_expected_log_prob_witness :
  exists h l1 l0,
    _entropy from_logits = Ok h /\
    _log_prob from_logits (scalar_event (SInt 1)) = Ok l1 /\
    _log_prob from_logits (scalar_event (SInt 0)) = Ok l0 /\
    zip_with Rplus (zip_with Rmult (values (p from_logits)) (values l1))
                   (zip_with Rmult (values (q from_logits)) (values l0)) =
      map Ropp (values h).
Proof.
  exact (entropy_is_expected_log_prob from_logits_is_instance
           from_logits_finite (proj1 sample_logits_in_range)).
Defined.

Lemma kl_plus_entropy_is_cross_entropy_witness :
  exists kl h l1 l0,
    _kl_bernoulli_bernoulli from_logits from_other_logits = Ok kl /\
    _entropy from_logits = Ok h /\
    _log_prob from_other_logits (scalar_event (SInt 1)) = Ok l1 /\
    _log_prob from_other_logits (scalar_event (SInt 0)) = Ok l0 /\
    zip_with Rplus (values kl) (values h) =
      map Ropp
        (zip_with Rplus
           (zip_with Rmult (values (p from_logits)) (values l1))
           (zip_with Rmult (values (q from_logits)) (values l0))).
Proof.
  exact (@kl_plus_entropy_is_cross_entropy from_logits from_other_logits
           from_logits_is_instance from_other_logits_is_instance
           from_logits_finite from_other_logits_finite
           (proj1 sample_logits_in_range) eq_refl).
Defined.

(** * Overflow of the entropy *)

(** ** The exponential against the float32 limit *)

Lemma exp_INR_mult (n : nat) (x : R) : exp (INR n * x) = exp x ^ n.
Proof.
  induction n as [|n IH].
  - simpl. rewrite Rmult_0_l. apply exp_0.
  - rewrite S_INR, Rmult_plus_distr_r, Rmult_1_l, exp_plus, IH.
    simpl. ring.
Qed.

Lemma exp_pow_lower (n : nat) (x c : R) :
  0 <= c -> c <= exp x -> c ^ n <= exp (INR n * x).
Proof.
  intros Hc H. rewrite exp_INR_mult. apply pow_incr. lra.
Qed.

Lemma exp_pow_upper (n : nat) (x c : R) :
  exp x <= c -> exp (INR n * x) <= c ^ n.
Proof.
  intros H. rewrite exp_INR_mult. apply pow_incr.
  pose proof (exp_pos x). lra.
Qed.

Lemma exp_small_upper (x : R) : 0 <= x < 1 -> exp x <= / (1 - x).
Proof.
  intros [H0 H1]. pose proof (exp_ineq1_le (- x)) as H.
  rewrite exp_Ropp in H. pose proof (exp_pos x) as Hp.
  assert (Hi : 1 - x <= / exp x) by lra.
  apply Rmult_le_reg_r with (1 - x); [lra|].
  rewrite Rinv_l by lra.
  apply Rmult_le_reg_r with (/ exp x); [apply Rinv_0_lt_compat; lra|].
  rewrite Rmult_1_l.
  replace (exp x * (1 - x) * / exp x) with (1 - x) by (field; lra).
  exact Hi.
Qed.

(** [exp 89] is above the limit: [exp (89 / 128) >= 2]. *)
Lemma exp_89_overflows : float32_limit <= exp 89.
Proof.
  unfold float32_limit.
  assert (H2 : 2 <= exp (89 / 128)).
  { replace (89 / 128) with (INR 128 * (89 / 16384))
      by (rewrite INR_IZR_INZ; simpl Z.of_nat; lra).
    apply Rle_trans with ((16473 / 16384) ^ 128); [lra|].
    apply exp_pow_lower; [lra|].
    pose proof (exp_ineq1_le (89 / 16384)). lra. }
  replace 89 with (INR 128 * (89 / 128))
    by (rewrite INR_IZR_INZ; simpl Z.of_nat; lra).
  apply exp_pow_lower; [lra | exact H2].
Qed.

(** [exp 88] is below it: [exp (11 / 16) < 2]. *)
Lemma exp_88_in_range : exp 88 + 1 < float32_limit.
Proof.
  unfold float32_limit.
  assert (H1 : exp (11 / 16) <= 1999 / 1000).
  { replace (11 / 16) with (INR 64 * (11 / 1024))
      by (rewrite INR_IZR_INZ; simpl Z.of_nat; lra).
    apply Rle_trans with ((1024 / 1013) ^ 64); [|lra].
    apply exp_pow_upper.
    pose proof (@exp_small_upper (11 / 1024)) as H.
    replace (/ (1 - 11 / 1024)) with (1024 / 1013) in H by (field; lra).
    apply H. lra. }
  assert (H : exp 88 <= (1999 / 1000) ^ 128).
  { replace 88 with (INR 128 * (11 / 16))
      by (rewrite INR_IZR_INZ; simpl Z.of_nat; lra).
    now apply exp_pow_upper. }
  assert ((1999 / 1000) ^ 128 + 1 < 2 ^ 128) by lra.
  lra.
Qed.

Lemma exp_monotone (x y : R) : x <= y -> exp x <= exp y.
Proof.
  intros [H | ->]; [left; now apply exp_increasing | right; reflexivity].
Qed.

Lemma overflow_finite (r : R) :
  Rabs r < float32_limit -> overflow r = Finite r.
Proof.
  intros H. unfold overflow.
  destruct (Rle_dec float32_limit (Rabs r)); [lra | reflexivity].
Qed.

Lemma overflow_positive (r : R) :
  float32_limit <= r -> overflow r = Infinity false.
Proof.
  intros H. unfold overflow.
  assert (H0 : 0 < float32_limit) by (unfold float32_limit; lra).
  rewrite Rabs_right by lra.
  destruct (Rle_dec float32_limit r); [|contradiction].
  now rewrite Rltb_false by lra.
Qed.

(** The first summand of the entropy stays finite. *)
Lemma entropy_first_summand (x : R) :
  Rabs x < float32_limit ->
  f32_mul (f32_neg (Finite x)) (f32_sub (f32_sigmoid (Finite x)) (Finite 1))
  = Finite (- x * (math_ops.sigmoid_ x + - 1)).
Proof.
  intros Hx. pose proof (sigmoid_pos x) as Hs0.
  pose proof (sigmoid_lt_1 x) as Hs1.
  assert (Hlim : 1 < float32_limit) by (unfold float32_limit; lra).
  unfold f32_sub. simpl.
  rewrite overflow_finite by (rewrite Rabs_left; lra).
  simpl. apply overflow_finite.
  rewrite Rabs_mult, Rabs_Ropp.
  rewrite (Rabs_left (math_ops.sigmoid_ x + - 1)) by lra.
  pose proof (Rabs_pos x).
  apply Rle_lt_trans with (Rabs x * 1); [|lra].
  apply Rmult_le_compat_l; lra.
Qed.

(** ** The entropy at float32 logits *)

(** C9: at the float32 logit -100 the entropy operation's expression
    overflows: [exp 100] is above the float32 limit, and the operation
    returns +infinity, where the reference entropy
    [-p * log p - q * log q] at [p = sigmoid (-100)] is a number between 0
    and log 2. *)
Theorem entropy_overflows_at_minus_100 :
  _entropy_float32 (Finite (-100)) = Infinity false /\
  0 < reference_entropy (math_ops.sigmoid_ (-100))
                        (1 - math_ops.sigmoid_ (-100)) <= ln 2.
Proof.
  split.
  - unfold _entropy_float32.
    assert (H0 : 100 < float32_limit) by (unfold float32_limit; lra).
    rewrite entropy_first_summand by (rewrite Rabs_left; lra).
    simpl f32_neg. simpl f32_exp.
    rewrite overflow_positive; [reflexivity|].
    apply Rle_trans with (exp 89); [apply exp_89_overflows|].
    apply exp_monotone. lra.
  - apply reference_entropy_bounds.
    split; [apply sigmoid_pos | apply sigmoid_lt_1].
Qed.

(** X19: for float32 logits of -88 and more the expression of the entropy
    does not overflow: evaluated with float32's overflow it is the closed
    form over the reals, the reference entropy at [p = sigmoid x]. *)
Theorem entropy_in_range (x : R) :
  -88 <= x -> x < float32_limit ->
  _entropy_float32 (Finite x) = Finite (entropy_closed_form x) /\
  entropy_closed_form x =
    reference_entropy (math_ops.sigmoid_ x) (1 - math_ops.sigmoid_ x).
Proof.
  intros Hlo Hhi. split; [|apply entropy_closed_form_reference].
  assert (H0 : 88 < float32_limit) by (unfold float32_limit; lra).
  pose proof exp_88_in_range as H88.
  assert (He : exp (- x) <= exp 88) by (apply exp_monotone; lra).
  pose proof (exp_pos (- x)) as Hp.
  unfold _entropy_float32.
  rewrite entropy_first_summand
    by (unfold Rabs; destruct (Rcase_abs x); lra).
  simpl f32_neg. simpl f32_exp.
  rewrite overflow_finite by (rewrite Rabs_right; lra).
  simpl f32_add at 2.
  rewrite overflow_finite by (rewrite Rabs_right; lra).
  simpl f32_log.
  destruct (Rlt_dec (1 + exp (- x)) 0); [lra|].
  destruct (Req_dec_T (1 + exp (- x)) 0); [lra|].
  simpl f32_add.
  replace (- x * (math_ops.sigmoid_ x + - 1) + ln (1 + exp (- x)))
    with (entropy_closed_form x) by (unfold entropy_closed_form; ring).
  apply overflow_finite.
  pose proof (entropy_closed_form_bounds x) as [Hb0 Hb1].
  pose proof (@ln_le_minus_1 2) as Hl2.
  rewrite Rabs_right; lra.
Qed.

(** X20: for float32 logits of -89 and less the expression of the entropy
    overflows, and the operation returns +infinity. *)
Theorem entropy_overflows_below_minus_89 (x : R) :
  - float32_limit < x -> x <= -89 ->
  _entropy_float32 (Finite x) = Infinity false.
Proof.
  intros Hlo Hhi. unfold _entropy_float32.
  rewrite entropy_first_summand by (rewrite Rabs_left; lra).
  simpl f32_neg. simpl f32_exp.
  rewrite overflow_positive; [reflexivity|].
  apply Rle_trans with (exp 89); [apply exp_89_overflows|].
  apply exp_monotone. lra.
Qed.

Lemma entropy_in_range_witness :
  _entropy_float32 (Finite 2) = Finite (entropy_closed_form 2) /\
  entropy_closed_form 2 =
    reference_entropy (math_ops.sigmoid_ 2) (1 - math_ops.sigmoid_ 2).
Proof.
  apply (@entropy_in_range 2); unfold float32_limit; lra.
Defined.

Lemma entropy_overflows_below_minus_89_witness :
  _entropy_float32 (Finite (-89)) = Infinity false.
Proof.
  apply (@entropy_overflows_below_minus_89 (-89));
    unfold float32_limit; lra.
Defined.
